(** * Period aggregation and differencing of the analytics dashboard

    A shallow embedding of the client-side aggregation engine
    ([ApiService.simulateQueryExecution]), of the custom commitment range
    form ([CustomCommitmentRangeBuilder.handleSubmit]) and of the request
    built by the dashboard page ([App.handleRunQuery]), with the properties
    the specification states about them.

    Numbers.  A JavaScript number is an IEEE 754 binary64 value.  It is
    modelled by [spec_float], the Standard Library's specification of
    binary floating-point numbers, at precision 53 and maximal exponent
    1024: the two zeros, the two infinities, NaN (without payload) and the
    finite numbers [m * 2 ^ e].  The arithmetic operators are the
    library's correctly rounded operations (round to nearest, ties to
    even), so sums round, overflow to an infinity and depend on the order
    of the summands exactly as they do in the program.  The binary64
    values are the [spec_float] values that [valid_binary 53 1024] accepts;
    the theorems hold for every [spec_float] value, and the sample inputs
    are binary64 values.

    Strings.  A string is a sequence of 8-bit code units; on these the
    order of [String.le] is the code-unit order of JavaScript. *)

From Stdlib Require Import ZArith Lia.
From Stdlib Require Import SpecFloat.
From Stdlib Require Ascii String.
From stdpp Require Import base option list strings numbers gmap sorting.

Local Open Scope Z_scope.

(** ** JavaScript numbers *)

Definition jsnum : Type := spec_float.

Global Instance jsnum_eq_dec : EqDecision jsnum.
Proof. solve_decision. Defined.

(** The global constants [NaN] and [Infinity]. *)
Definition NaN : jsnum := S754_nan.
Definition Infinity : jsnum := S754_infinity false.

(** The literal written [n] in the source, for an integer [n]: the double
    nearest to [n], which is [n] itself up to 2^53. *)
Definition num (n : Z) : jsnum := binary_normalize 53 1024 n 0 false.

(** The double [m * 2 ^ e], for a positive integer [m] and an exponent
    [e]. *)
Definition pow2_multiple (m : positive) (e : Z) : jsnum :=
  binary_round 53 1024 false m e.

(** [isFinite(x)] on a number. *)
Definition isFinite (x : jsnum) : bool :=
  match x with
  | S754_zero _ | S754_finite _ _ _ => true
  | _ => false
  end.

(** [isNaN(x)] on a number. *)
Definition isNaN (x : jsnum) : bool :=
  match x with
  | S754_nan => true
  | _ => false
  end.

(** [x + y], [x - y], [x * y] and [x / y]. *)
Definition js_add (x y : jsnum) : jsnum := SFadd 53 1024 x y.

Definition js_sub (x y : jsnum) : jsnum := SFsub 53 1024 x y.

Definition js_mul (x y : jsnum) : jsnum := SFmul 53 1024 x y.

Definition js_div (x y : jsnum) : jsnum := SFdiv 53 1024 x y.

(** [x > y] and [x >= y]: false when either side is NaN. *)
Definition js_gt (x y : jsnum) : bool := SFltb y x.

Definition js_ge (x y : jsnum) : bool := SFleb y x.


(** ** Decimal rendering of integers

    [String(n)] for an integer [n] is its decimal numeral, with a leading
    minus sign when negative.  (Integers of magnitude 1e21 and above, which
    JavaScript prints in exponent notation, are outside the model.) *)

(** Decimal digits of a non-negative integer, least significant first. *)
Fixpoint digits_le (fuel : nat) (n : Z) : list Z :=
  match fuel with
  | O => []
  | S f => (n mod 10) :: (if n / 10 =? 0 then [] else digits_le f (n / 10))
  end.

(** Decimal digits, most significant first. *)
Definition digits (n : Z) : list Z :=
  reverse (digits_le (S (Z.to_nat (Z.log2 n))) n).

Definition digit_char (d : Z) : Ascii.ascii :=
  Ascii.ascii_of_N (Z.to_N (48 + d)).

Definition string_of_digits (ds : list Z) : string :=
  String.string_of_list_ascii (digit_char <$> ds).

(** The character "-". *)
Definition minus_sign : Ascii.ascii := Ascii.ascii_of_N 45.

Definition ToString_int (z : Z) : string :=
  if z <? 0 then String.String minus_sign (string_of_digits (digits (- z)))
  else string_of_digits (digits z).

(** ** Values found in the fields of a backend row

    The rows are parsed JSON of type [any].  The date key column is
    [INTEGER NOT NULL] in the schema; it reaches the client as an integer
    or as a string, under a camel-case or a lower-case name.  The amount
    columns are [NUMERIC]; they reach the client as a number, as [null],
    or not at all.  Fractional keys and amounts sent as strings are outside
    the model. *)

Inductive jskey : Type :=
  | KUndefined
  | KNull
  | KNumber (n : Z)
  | KString (s : string).

Inductive jsamt : Type :=
  | AUndefined
  | ANull
  | ANumber (x : jsnum).

(** The nullish-coalescing operator [a ?? b]. *)
Class Nullish (A : Type) := is_nullish : A → bool.

Global Instance jskey_nullish : Nullish jskey := λ v,
  match v with
  | KUndefined | KNull => true
  | _ => false
  end.

Global Instance jsamt_nullish : Nullish jsamt := λ v,
  match v with
  | AUndefined | ANull => true
  | _ => false
  end.

Definition coalesce {A} `{Nullish A} (a b : A) : A :=
  if is_nullish a then b else a.

Infix "??" := coalesce (at level 61, left associativity).

(** [String(v)]. *)
Definition String_ (v : jskey) : string :=
  match v with
  | KUndefined => "undefined"
  | KNull => "null"
  | KNumber n => ToString_int n
  | KString s => s
  end.

(** [Number(v)]. *)
Definition Number_ (v : jsamt) : jsnum :=
  match v with
  | AUndefined => NaN
  | ANull => num 0
  | ANumber x => x
  end.

(** ** Rows, aggregates and output records *)

Module RawRow.
Record t : Type := mk {
  ProcessingDateKey : jskey;
  processingdatekey : jskey;
  CommitmentAmt : jsamt;
  commitmentamt : jsamt;
  OutstandingAmt : jsamt;
  outstandingamt : jsamt;
}.
End RawRow.

(** The value type of [aggMap]. *)
Module Agg.
Record t : Type := mk {
  CommitmentAmt : jsnum;
  OutstandingAmt : jsnum;
  Deals : jsnum;
}.
Definition zero : t := mk (num 0) (num 0) (num 0).
End Agg.

(** [interface AnalyticsRecord]. *)
Record AnalyticsRecord : Type := mkAnalyticsRecord {
  ProcessingDateKey : string;
  CommitmentAmt : jsnum;
  Deals : jsnum;
  OutstandingAmt : jsnum;
  ProcessingDateKeyPrior : string;
  CommitmentAmtPrior : jsnum;
  OutstandingAmtPrior : jsnum;
  DealsPrior : jsnum;
  ca_diff : option jsnum;
  oa_diff : option jsnum;
  deals_diff : option jsnum;
  ca_model_diff : option jsnum;
  oa_model_diff : option jsnum;
  deals_model_diff : option jsnum;
}.

(** The object held in [prev]: [{ key, ...cur }]. *)
Record Prev : Type := mkPrev {
  prev_key : string;
  prev_agg : Agg.t;
}.

(** Outcome of a call: a value, or a thrown exception. *)
Inductive js_error : Type :=
  | Error (message : string)
  | TypeError.

Inductive result (A : Type) : Type :=
  | Ok (a : A)
  | Throw (e : js_error).
Arguments Ok {A} a.
Arguments Throw {A} e.

(** [interface ApiResponse<T>], with the fields the engine reads.  The
    response is parsed JSON: whatever the interface says, [data] can be
    missing or [null], and an element of the array can be [null]. *)
Record ApiResponse (T : Type) : Type := mkApiResponse {
  success : bool;
  data : T;
  error : option string;
}.
Arguments mkApiResponse {T}.
Arguments success {T}.
Arguments data {T}.
Arguments error {T}.

(** ** The aggregation engine: [ApiService.simulateQueryExecution] *)

Definition row_key (row : RawRow.t) : string :=
  String_ (RawRow.ProcessingDateKey row ?? RawRow.processingdatekey row).

Definition row_ca (row : RawRow.t) : jsnum :=
  Number_ (RawRow.CommitmentAmt row ?? RawRow.commitmentamt row ?? ANumber (num 0)).

Definition row_oa (row : RawRow.t) : jsnum :=
  Number_ (RawRow.OutstandingAmt row ?? RawRow.outstandingamt row ?? ANumber (num 0)).

(** [isFinite(x) ? x : 0]. *)
Definition finite_or_zero (x : jsnum) : jsnum :=
  if isFinite x then x else num 0.

(** One iteration of the loop over [rows]. *)
Definition accumulate (aggMap : gmap string Agg.t) (row : RawRow.t)
    : gmap string Agg.t :=
  let key := row_key row in
  let ca := row_ca row in
  let oa := row_oa row in
  let current := default Agg.zero (aggMap !! key) in
  <[key := Agg.mk
             (js_add (Agg.CommitmentAmt current) (finite_or_zero ca))
             (js_add (Agg.OutstandingAmt current) (finite_or_zero oa))
             (js_add (Agg.Deals current) (num 1))]> aggMap.

Definition build_aggMap (rows : list RawRow.t) : gmap string Agg.t :=
  foldl accumulate ∅ rows.

(** [Array.from(aggMap.keys()).sort()]: the default sort compares strings
    by code units.  The keys of a map are distinct and the order is total,
    so the sorted array does not depend on the sorting algorithm. *)
Definition sorted_dates (aggMap : gmap string Agg.t) : list string :=
  merge_sort String.le (map_to_list aggMap).*1.

(** [prev ? f(prev) : d]. *)
Definition prev_or {A} (prev : option Prev) (f : Agg.t → A) (d : A) : A :=
  match prev with
  | Some p => f (prev_agg p)
  | None => d
  end.

(** [prev && f(prev) > 0 ? (cur - f(prev)) / f(prev) : null]. *)
Definition diff_ratio (prev : option Prev) (f : Agg.t → jsnum) (cur : Agg.t)
    : option jsnum :=
  match prev with
  | Some p =>
      if js_gt (f (prev_agg p)) (num 0)
      then Some (js_div (js_sub (f cur) (f (prev_agg p))) (f (prev_agg p)))
      else None
  | None => None
  end.

Definition make_record (key : string) (cur : Agg.t) (prev : option Prev)
    : AnalyticsRecord :=
  {| ProcessingDateKey := key;
     CommitmentAmt := Agg.CommitmentAmt cur;
     Deals := Agg.Deals cur;
     OutstandingAmt := Agg.OutstandingAmt cur;
     ProcessingDateKeyPrior :=
       match prev with Some p => prev_key p | None => "0" end;
     CommitmentAmtPrior := prev_or prev Agg.CommitmentAmt (num 0);
     OutstandingAmtPrior := prev_or prev Agg.OutstandingAmt (num 0);
     DealsPrior := prev_or prev Agg.Deals (num 0);
     ca_diff := diff_ratio prev Agg.CommitmentAmt cur;
     oa_diff := diff_ratio prev Agg.OutstandingAmt cur;
     deals_diff := diff_ratio prev Agg.Deals cur;
     ca_model_diff := None;
     oa_model_diff := None;
     deals_model_diff := None |}.

(** The loop over [dates], with its two mutable variables [records] and
    [prev].  [aggMap.get(key)!] is only a type assertion: reading a field
    of a missing entry throws. *)
Fixpoint emit_records (aggMap : gmap string Agg.t) (dates : list string)
    (records : list AnalyticsRecord) (prev : option Prev)
    : result (list AnalyticsRecord) :=
  match dates with
  | [] => Ok records
  | key :: dates' =>
      match aggMap !! key with
      | None => Throw TypeError
      | Some cur =>
          emit_records aggMap dates'
            (records ++ [make_record key cur prev])
            (Some (mkPrev key cur))
      end
  end.

(** The aggregation of the rows of a successful response. *)
Definition aggregate_rows (rows : list RawRow.t) : result (list AnalyticsRecord) :=
  let aggMap := build_aggMap rows in
  emit_records aggMap (sorted_dates aggMap) [] None.

(** [s || d] for an optional string [s]: the empty string is falsy. *)
Definition or_string (s : option string) (d : string) : string :=
  match s with
  | None | Some "" => d
  | Some s => s
  end.

(** The loop over [rows] when the elements are arbitrary JSON values: an
    element that is [null] (here [None]) has no properties, and reading
    [row.ProcessingDateKey] throws.  (An element that is a number, a string
    or a boolean has none of the columns: it behaves like an object whose
    six fields are [undefined].) *)
Fixpoint accumulate_rows (aggMap : gmap string Agg.t)
    (rows : list (option RawRow.t)) : result (gmap string Agg.t) :=
  match rows with
  | [] => Ok aggMap
  | None :: _ => Throw TypeError
  | Some row :: rows' => accumulate_rows (accumulate aggMap row) rows'
  end.

(** [simulateQueryExecution] from the point where the response has
    arrived.  [data] is [None] when the field is missing or [null], which
    [for ... of] cannot iterate.  (Data that is neither an array nor
    nullish is outside the model.) *)
Definition simulateQueryExecution
    (response : ApiResponse (option (list (option RawRow.t))))
    : result (list AnalyticsRecord) :=
  if negb (success response)
  then Throw (Error (or_string (error response) "Query failed"))
  else
    match data response with
    | None => Throw TypeError
    | Some rows =>
        match accumulate_rows ∅ rows with
        | Throw e => Throw e
        | Ok aggMap => emit_records aggMap (sorted_dates aggMap) [] None
        end
    end.

(** ** The custom range form: [CustomCommitmentRangeBuilder.handleSubmit] *)

(** [interface CustomCommitmentRange]. *)
Module CustomCommitmentRange.
Record t : Type := mk {
  id : string;
  label : string;
  min : jsnum;
  max : jsnum;
}.
End CustomCommitmentRange.

(** The state [rangeForm] of the dialog: three text inputs. *)
Module RangeForm.
Record t : Type := mk {
  label : string;
  min : string;
  max : string;
}.
Definition empty : t := mk "" "" "".
End RangeForm.

(** What [handleSubmit] can read and change: the two pieces of component
    state, and the list of custom ranges of the filter specification, which
    the parent's [onAddRange] handler ([handleCustomRangeAdd]) appends to. *)
Record BuilderState : Type := mkBuilderState {
  rangeForm : RangeForm.t;
  isDialogOpen : bool;
  customCommitmentRanges : list CustomCommitmentRange.t;
}.

Section range_builder.
(** The two library functions the handler calls on the text inputs. *)
Variable parseFloat : string → jsnum.
Variable trim : string → string.

(** [onAddRange(range)], as the page implements it. *)
Definition onAddRange (range : CustomCommitmentRange.t) (st : BuilderState)
    : BuilderState :=
  mkBuilderState (rangeForm st) (isDialogOpen st)
    (customCommitmentRanges st ++ [range]).

(** [handleSubmit], at time [now] (the value of [Date.now()]). *)
Definition handleSubmit (now : Z) (st : BuilderState) : result BuilderState :=
  let minValue := parseFloat (RangeForm.min (rangeForm st)) in
  let maxValue := parseFloat (RangeForm.max (rangeForm st)) in
  if isNaN minValue || isNaN maxValue || js_ge minValue maxValue
     || bool_decide (trim (RangeForm.label (rangeForm st)) = "")
  then Ok st
  else
    let newRange :=
      CustomCommitmentRange.mk
        ("custom-" +:+ ToString_int now)
        (trim (RangeForm.label (rangeForm st)))
        minValue
        maxValue in
    let st1 := onAddRange newRange st in
    Ok (mkBuilderState RangeForm.empty false (customCommitmentRanges st1)).
End range_builder.

(** ** The request of the dashboard page: [App.handleRunQuery] *)

(** The state [selectedFilters] of the page. *)
Module SelectedFilters.
Record t : Type := mk {
  lineOfBusiness : list string;
  commitmentSizeGroup : list string;
  customCommitmentRanges : list CustomCommitmentRange.t;
  riskGroup : list string;
  bankId : list string;
  region : list string;
  naicsGrpName : list string;
}.
End SelectedFilters.

(** The body posted to the analysis endpoint. *)
Module CappedRequest.
Record t : Type := mk {
  selected_columns : list string;
  region : string;
  sba_filter : string;
  line_of_business_ids : option (list string);
  commitment_size_groups : option (list string);
  risk_group_descriptions : option (list string);
  cap_value : jsnum;
  output_file : string;
}.
End CappedRequest.

(** [l.length > 0 ? l : undefined]. *)
Definition nonempty_or_undefined (l : list string) : option (list string) :=
  match l with
  | [] => None
  | _ => Some l
  end.

(** [l[0] || d]: the first element, unless it is missing or empty. *)
Definition first_or (l : list string) (d : string) : string :=
  or_string (head l) d.

(** The literal [0.1]: the double nearest to one tenth, which is what the
    correctly rounded quotient of 1 by 10 is. *)
Definition one_tenth : jsnum := js_div (num 1) (num 10).

(** The request [handleRunQuery] builds at time [now]. *)
Definition handleRunQuery_request (now : Z) (selectedFilters : SelectedFilters.t)
    : CappedRequest.t :=
  CappedRequest.mk
    ["ProcessingDateKey"; "CommitmentAmt"; "OutstandingAmt"; "Deals";
     "ProcessingDateKeyPrior"; "CommitmentAmtPrior"; "OutstandingAmtPrior";
     "DealsPrior"]
    (first_or (SelectedFilters.region selectedFilters) "Rocky Mountain")
    "Non-SBA"
    (nonempty_or_undefined (SelectedFilters.lineOfBusiness selectedFilters))
    (nonempty_or_undefined (SelectedFilters.commitmentSizeGroup selectedFilters))
    (nonempty_or_undefined (SelectedFilters.riskGroup selectedFilters))
    one_tenth
    ("dashboard_analysis_" +:+ ToString_int now +:+ ".csv").

(** ** Specification-side definitions *)

(** The mantissa [m] shifted left by [n] bits. *)
Definition shl (m : positive) (n : nat) : positive := Nat.iter n xO m.

(** The integer a number denotes, when it denotes one. *)
Definition integer_value (x : jsnum) : option Z :=
  match x with
  | S754_zero _ => Some 0
  | S754_finite s m e =>
      if 0 <=? e then Some (cond_Zopp s (Z.pos m * 2 ^ e))
      else if Z.pos m mod 2 ^ (- e) =? 0
           then Some (cond_Zopp s (Z.pos m / 2 ^ (- e)))
           else None
  | _ => None
  end.

(** The sum of a list of integers. *)
Definition sum_Z (l : list Z) : Z := foldr Z.add 0 l.

(** [(cur - prior) / prior], the difference rounded and then the quotient
    rounded. *)
Definition change_ratio (cur prior : jsnum) : jsnum :=
  js_div (js_sub cur prior) prior.

(** The sum of a sequence of numbers as a loop computes it: added one by
    one from the left, starting at 0, each addition rounded. *)
Definition js_sum (l : list jsnum) : jsnum := foldl js_add (num 0) l.

(** The rows of a period: those whose key is [k], in input order. *)
Definition group (k : string) (rows : list RawRow.t) : list RawRow.t :=
  filter (λ row, row_key row = k) rows.

(** The aggregate the specification assigns to period [k]: the sums of what
    its rows contribute, and one deal for each row. *)
Definition group_agg (k : string) (rows : list RawRow.t) : Agg.t :=
  Agg.mk
    (js_sum ((finite_or_zero ∘ row_ca) <$> group k rows))
    (js_sum ((finite_or_zero ∘ row_oa) <$> group k rows))
    (js_sum ((λ _, num 1) <$> group k rows)).

(** The distinct period keys of the input, in code-unit order. *)
Definition period_keys (rows : list RawRow.t) : list string :=
  merge_sort String.le (remove_dups (row_key <$> rows)).

(** The pairwise scan over the ordered aggregates: each period is paired
    with its immediate predecessor. *)
Fixpoint link (prev : option Prev) (entries : list (string * Agg.t))
    : list AnalyticsRecord :=
  match entries with
  | [] => []
  | (key, cur) :: entries' =>
      make_record key cur prev :: link (Some (mkPrev key cur)) entries'
  end.

(** Group, sort, scan: the engine as the specification describes it. *)
Definition aggregate_spec (rows : list RawRow.t) : list AnalyticsRecord :=
  link None ((λ k, (k, group_agg k rows)) <$> period_keys rows).

(** The aggregate carried by an output record. *)
Definition agg_of (r : AnalyticsRecord) : Agg.t :=
  Agg.mk (CommitmentAmt r) (OutstandingAmt r) (Deals r).

(** [c] directly follows [p] in the sequence [out]. *)
Definition follows (out : list AnalyticsRecord) (p c : AnalyticsRecord) : Prop :=
  ∃ i : nat, out !! i = Some p ∧ out !! S i = Some c.

(** The number denoted by a list of decimal digits, least significant
    first. *)
Definition value_le (ds : list Z) : Z := foldr (λ d acc, d + 10 * acc) 0 ds.

Definition is_digit (d : Z) : Prop := 0 ≤ d < 10.

(** A loan-commitment observation, as the specification defines it; the
    two amounts are numbers as the engine receives them. *)
Record RawRecord : Type := mkRawRecord {
  periodKey : Z;
  commitmentAmount : jsnum;
  outstandingAmount : jsnum;
  region : string;
  lineOfBusinessId : string;
  commitmentSizeGroup : string;
  riskGroupDescription : string;
  bankId : string;
  naicsGroupName : string;
}.

(** The row the backend sends for a record. *)
Definition to_row (x : RawRecord) : RawRow.t :=
  RawRow.mk
    (KNumber (periodKey x)) KUndefined
    (ANumber (commitmentAmount x)) AUndefined
    (ANumber (outstandingAmount x)) AUndefined.

(** A record with finite amounts. *)
Definition finite_amounts (x : RawRecord) : Prop :=
  isFinite (commitmentAmount x) = true ∧ isFinite (outstandingAmount x) = true.

(** The records of period [k], in input order. *)
Definition records_of (k : Z) (recs : list RawRecord) : list RawRecord :=
  filter (λ x, periodKey x = k) recs.

(** Calendar validity of a [YYYYMMDD] key with a four-digit year. *)
Definition is_leap (y : Z) : bool :=
  (y mod 4 =? 0) && (negb (y mod 100 =? 0) || (y mod 400 =? 0)).

Definition days_in_month (y m : Z) : Z :=
  if m =? 2 then (if is_leap y then 29 else 28)
  else if (m =? 4) || (m =? 6) || (m =? 9) || (m =? 11) then 30
  else 31.

Definition valid_yyyymmdd (k : Z) : bool :=
  let y := k / 10000 in
  let m := (k / 100) mod 100 in
  let d := k mod 100 in
  (1000 <=? y) && (y <=? 9999) && (1 <=? m) && (m <=? 12)
  && (1 <=? d) && (d <=? days_in_month y m).

(** The amount fields of a row, read as the engine reads them. *)
Definition ca_field (row : RawRow.t) : jsamt :=
  RawRow.CommitmentAmt row ?? RawRow.commitmentamt row.

Definition oa_field (row : RawRow.t) : jsamt :=
  RawRow.OutstandingAmt row ?? RawRow.outstandingamt row.

(** An amount that is missing ([undefined] or [null]) or not finite. *)
Definition missing_or_nonfinite (v : jsamt) : Prop :=
  match v with
  | ANumber x => isFinite x = false
  | _ => True
  end.

(** What an amount field adds to its period's total: the amount when it is
    a finite number, zero when it is missing or not finite. *)
Definition field_contribution (v : jsamt) : jsnum :=
  match v with
  | ANumber x => if isFinite x then x else num 0
  | _ => num 0
  end.

(** Modelled from the spec: the backend's evaluation of a request against a
    record is not part of the sources.  A list filter admits a record when
    the list is absent, or empty, or contains the record's value (section
    4.1 of the specification; "Filter Parameters" in the pipeline
    documentation). *)
Definition list_filter_admits (allowed : option (list string)) (v : string)
    : bool :=
  match allowed with
  | None => true
  | Some l => bool_decide (l = []) || bool_decide (v ∈ l)
  end.





(** Modelled from the spec: the date filters of section 3 of the
    specification, which the dashboard page does not have. *)
Inductive DateOperator : Type :=
  | OpEquals
  | OpGreaterOrEqual
  | OpLessOrEqual
  | OpBetween.

Module DateFilter.
Record t : Type := mk {
  operator : DateOperator;
  periodKey : Z;
  endPeriodKey : option Z;
}.
End DateFilter.



(** The distinct period keys of a collection of records, ascending. *)
Definition distinct_periods (recs : list RawRecord) : list Z :=
  merge_sort Z.le (remove_dups (periodKey <$> recs)).

(** Sample inputs.  [sample_record k c o] is a record of period [k] with
    commitment [c] and outstanding amount [o], and the categorical fields of
    the first row of the seed data. *)
Definition sample_record (k c o : Z) : RawRecord :=
  mkRawRecord k (num c) (num o)
    "Rocky Mountain" "11" "Small" "Low" "B001" "Manufacturing".

Definition single_period_rows : list RawRow.t :=
  [to_row (sample_record 20240131 1000000 800000)].

Definition unordered_records : list RawRecord :=
  [sample_record 20240229 1200000 900000;
   sample_record 20240131 1000000 800000;
   sample_record 20240229 400000 350000].

Definition zero_prior_records : list RawRecord :=
  [sample_record 20240131 0 0; sample_record 20240229 500 400].

Definition negative_prior_records : list RawRecord :=
  [sample_record 20240131 (-100) 80; sample_record 20240229 50 90].

(** One period with the commitments 2^53, 1 and 1. *)
Definition drifting_records : list RawRecord :=
  [sample_record 20240131 (2 ^ 53) 0; sample_record 20240131 1 0;
   sample_record 20240131 1 0].

(** A period with two commitments of 2^1023, a finite double, followed by a
    period with the commitment 5. *)
Definition overflowing_records : list RawRecord :=
  [sample_record 20240131 (2 ^ 1023) 0; sample_record 20240131 (2 ^ 1023) 0;
   sample_record 20240229 5 0].

(** A period with the commitment 2^-1000 followed by a period with the
    commitment 2^1000, two finite doubles. *)
Definition steep_records : list RawRecord :=
  [mkRawRecord 20240131 (pow2_multiple 1 (-1000)) (num 0)
     "Rocky Mountain" "11" "Small" "Low" "B001" "Manufacturing";
   sample_record 20240229 (2 ^ 1000) 0].

(** On a string of decimal digits [parseFloat] returns the number the
    digits denote.  [sample_parseFloat] is defined on such strings only (it
    answers [NaN] elsewhere) and stands for [parseFloat] in the examples,
    whose inputs are such strings; [sample_trim] stands for [trim] there, on
    labels without surrounding white space. *)
Fixpoint parse_digits (s : string) (acc : Z) : option Z :=
  match s with
  | EmptyString => Some acc
  | String.String c s' =>
      let d := Z.of_N (Ascii.N_of_ascii c) - 48 in
      if (0 <=? d) && (d <? 10) then parse_digits s' (10 * acc + d) else None
  end.

Definition sample_parseFloat (s : string) : jsnum :=
  match s with
  | EmptyString => NaN
  | _ => match parse_digits s 0 with Some n => num n | None => NaN end
  end.

Definition sample_trim (s : string) : string := s.

(** The dialog after typing the label "Mid-Market" and the bounds 5 and 5. *)
Definition equal_bounds_state : BuilderState :=
  mkBuilderState (RangeForm.mk "Mid-Market" "5" "5") true [].




(** The worked example of the specification: the first four rows of the
    seed data. *)
Definition seed_records : list RawRecord :=
  [sample_record 20240131 1000000 800000;
   sample_record 20240131 500000 450000;
   sample_record 20240229 1200000 900000;
   sample_record 20240229 400000 350000].

(** ** Further definitions for the engine *)

(** The records of [unordered_records] with the first two exchanged: the
    two periods are interleaved differently, each period keeps the order of
    its own records. *)
Definition reinterleaved_records : list RawRecord :=
  [sample_record 20240131 1000000 800000;
   sample_record 20240229 1200000 900000;
   sample_record 20240229 400000 350000].

(** The records of [drifting_records] in the opposite order. *)
Definition drifting_records_reversed : list RawRecord :=
  [sample_record 20240131 1 0; sample_record 20240131 1 0;
   sample_record 20240131 (2 ^ 53) 0].

(** The whole number an amount field contributes, 0 when the contribution
    is not a whole number. *)
Definition whole_contribution (v : jsamt) : Z :=
  default 0 (integer_value (field_contribution v)).

(** A row whose two amounts contribute the whole numbers [ca row] and
    [oa row], which are not negative. *)
Definition whole_amounts (ca oa : RawRow.t → Z) (row : RawRow.t) : Prop :=
  0 ≤ ca row ∧ 0 ≤ oa row ∧
  field_contribution (ca_field row) = num (ca row) ∧
  field_contribution (oa_field row) = num (oa row).

(** A record whose two amounts are binary64 values. *)
Definition binary64_amounts (x : RawRecord) : bool :=
  valid_binary 53 1024 (commitmentAmount x)
  && valid_binary 53 1024 (outstandingAmount x).

(** The row the backend sends for a record when it names the columns in
    lower case. *)
Definition to_row_lower (x : RawRecord) : RawRow.t :=
  RawRow.mk
    KUndefined (KNumber (periodKey x))
    AUndefined (ANumber (commitmentAmount x))
    AUndefined (ANumber (outstandingAmount x)).

(** A row that carries a date key under neither name. *)
Definition keyless (row : RawRow.t) : Prop :=
  RawRow.ProcessingDateKey row = KUndefined ∧
  RawRow.processingdatekey row = KUndefined.

Global Instance jskey_eq_dec : EqDecision jskey.
Proof. solve_decision. Defined.

Global Instance keyless_dec (row : RawRow.t) : Decision (keyless row).
Proof. unfold keyless. apply _. Defined.



(** ** The results table: [DataTable] *)

(** [badgeVariant(value)]. *)
Definition badgeVariant (value : option jsnum) : string :=
  match value with
  | None => "secondary"
  | Some v =>
      if isNaN v then "secondary"
      else if js_ge v (num 0) then "default" else "destructive"
  end.

Section data_table.
(** [x.toFixed(digits)], the library's rendering of a number with a fixed
    number of fraction digits. *)
Variable toFixed : jsnum → Z → string.

(** [formatPercentage(value)]. *)
Definition formatPercentage (value : option jsnum) : string :=
  match value with
  | None => "N/A"
  | Some v =>
      if isNaN v then "N/A" else toFixed (js_mul v (num 100)) 2 +:+ "%"
  end.
End data_table.

(** The three ratio columns of the table, each with the aggregate it
    compares. *)
Definition ratio_columns
    : list ((AnalyticsRecord → option jsnum) * (AnalyticsRecord → jsnum)) :=
  [(ca_diff, CommitmentAmt); (oa_diff, OutstandingAmt); (deals_diff, Deals)].

(** ** The dashboard that runs the query: [App] *)



(** ** The status cards: [StatusDashboard] *)

Section status_dashboard.
(** The compact currency rendering of [Intl.NumberFormat]. *)
Variable formatCurrency : jsnum → string.

End status_dashboard.


(** ** The response cache of [ApiService] *)

(** An entry of [cache]: [{ data, expiry }]. *)
Module CacheEntry.
Record t (T : Type) : Type := mk {
  data : T;
  expiry : Z;
}.
Arguments mk {T}.
Arguments data {T}.
Arguments expiry {T}.
End CacheEntry.

(** The character ":". *)
Definition colon : Ascii.ascii := Ascii.ascii_of_N 58.

(** [getCacheKey(endpoint, options)], for a request whose body, if any, is
    a string (every request of the service sends [JSON.stringify(...)]).
    The empty string is falsy, like a missing body. *)
Definition getCacheKey (endpoint : string) (body : option string) : string :=
  let body :=
    match body with
    | None | Some "" => ""
    | Some b => String.String colon b
    end in
  endpoint +:+ body.

Section cache.
Context {T : Type}.

(** [getFromCache(key)] at time [now] (the value of [Date.now()]): the
    answer, [None] for [null], and the cache afterwards. *)
Definition getFromCache (now : Z) (key : string)
    (cache : gmap string (CacheEntry.t T))
    : option T * gmap string (CacheEntry.t T) :=
  match cache !! key with
  | None => (None, cache)
  | Some entry =>
      if decide (now > CacheEntry.expiry entry)
      then (None, delete key cache)
      else (Some (CacheEntry.data entry), cache)
  end.

(** [setCache(key, data, ttlMs)] at time [now]. *)
Definition setCache (now : Z) (key : string) (data : T) (ttlMs : Z)
    (cache : gmap string (CacheEntry.t T)) : gmap string (CacheEntry.t T) :=
  <[key := CacheEntry.mk data (now + ttlMs)]> cache.

(** A history of calls on the cache, oldest first. *)
Inductive cache_call : Type :=
  | CallGet (now : Z) (key : string)
  | CallSet (now : Z) (key : string) (data : T) (ttlMs : Z).

Definition cache_step (cache : gmap string (CacheEntry.t T)) (call : cache_call)
    : gmap string (CacheEntry.t T) :=
  match call with
  | CallGet now key => (getFromCache now key cache).2
  | CallSet now key data ttlMs => setCache now key data ttlMs cache
  end.

(** The cache after a history of calls on the empty cache of a new
    service. *)
Definition cache_after (calls : list cache_call) : gmap string (CacheEntry.t T) :=
  foldl cache_step ∅ calls.

(** The most recent [setCache] for [key] in a history: its time, data and
    time to live. *)
Fixpoint last_set (key : string) (calls : list cache_call)
    : option (Z * T * Z) :=
  match calls with
  | [] => None
  | call :: calls' =>
      match last_set key calls' with
      | Some s => Some s
      | None =>
          match call with
          | CallSet now key' data ttlMs =>
              if decide (key' = key) then Some (now, data, ttlMs) else None
          | CallGet _ _ => None
          end
      end
  end.
End cache.

(** A string without the character ":". *)
Fixpoint colon_free (s : string) : Prop :=
  match s with
  | EmptyString => True
  | String.String c s' => c ≠ colon ∧ colon_free s'
  end.

(** The body as the key function sees it: an empty body counts as none. *)
Definition effective_body (body : option string) : option string :=
  match body with
  | Some "" => None
  | _ => body
  end.

(** A history on a cache of strings: the summary statistics are stored at
    time 1000 for 60 seconds, the filter options at time 2000 for 5
    minutes. *)
Definition sample_calls : list (@cache_call string) :=
  [CallSet 1000 "/api/summary-stats" "{summary}" 60000;
   CallSet 2000 "/api/filter-options" "{options}" 300000].

(** ** Custom ranges on the page: [handleCustomRangeRemove] *)

(** [handleCustomRangeRemove(id)], which the remove button of a range calls
    with the range's id. *)
Definition handleCustomRangeRemove (id : string) (st : BuilderState)
    : BuilderState :=
  mkBuilderState (rangeForm st) (isDialogOpen st)
    (filter (λ range, CustomCommitmentRange.id range ≠ id)
       (customCommitmentRanges st)).

(** The id given to a range submitted at time [now]. *)
Definition range_id (now : Z) : string := "custom-" +:+ ToString_int now.

(** What the user can do with the form and the list of ranges. *)
Inductive builder_event : Type :=
  | TypeForm (form : RangeForm.t)
  | SetDialogOpen (open : bool)
  | Submit (now : Z)
  | RemoveRange (id : string)
  | ClearRanges.

Section range_builder_run.
Variable parseFloat : string → jsnum.
Variable trim : string → string.

Definition builder_step (st : BuilderState) (ev : builder_event) : BuilderState :=
  match ev with
  | TypeForm form =>
      mkBuilderState form (isDialogOpen st) (customCommitmentRanges st)
  | SetDialogOpen open =>
      mkBuilderState (rangeForm st) open (customCommitmentRanges st)
  | Submit now =>
      match handleSubmit parseFloat trim now st with
      | Ok st' => st'
      | Throw _ => st
      end
  | RemoveRange id => handleCustomRangeRemove id st
  | ClearRanges => mkBuilderState (rangeForm st) (isDialogOpen st) []
  end.

Definition builder_run (events : list builder_event) (st : BuilderState)
    : BuilderState :=
  foldl builder_step st events.
End range_builder_run.

(** The form and the page as they are first rendered. *)
Definition initial_builder : BuilderState :=
  mkBuilderState RangeForm.empty false [].

(** The times of the submissions of a history. *)
Definition submit_times (events : list builder_event) : list Z :=
  omap (λ ev, match ev with Submit now => Some now | _ => None end) events.

(** A range as the form is meant to produce it. *)
Definition well_formed_range (range : CustomCommitmentRange.t) : Prop :=
  isNaN (CustomCommitmentRange.min range) = false ∧
  isNaN (CustomCommitmentRange.max range) = false ∧
  js_gt (CustomCommitmentRange.max range) (CustomCommitmentRange.min range) = true ∧
  CustomCommitmentRange.label range ≠ "" ∧
  ∃ now : Z, CustomCommitmentRange.id range = range_id now.

(** Typing two ranges and submitting them at times 1000 and 2000. *)
Definition two_submissions : list builder_event :=
  [TypeForm (RangeForm.mk "Small" "0" "1000"); Submit 1000;
   TypeForm (RangeForm.mk "Large" "1000" "5000"); Submit 2000].

(** The same, followed by typing a third range. *)
Definition third_range_typed : list builder_event :=
  two_submissions ++ [TypeForm (RangeForm.mk "Jumbo" "5000" "9000")].

(** ** The filter panel: [FilterPanel] and the handlers of the page *)

(** The keys of [SelectedFilters] that hold a list of strings. *)
Inductive ListField : Type :=
  | FLineOfBusiness
  | FCommitmentSizeGroup
  | FRiskGroup
  | FBankId
  | FRegion
  | FNaicsGrpName.

Global Instance ListField_eq_dec : EqDecision ListField.
Proof. solve_decision. Defined.

(** [keyof SelectedFilters]. *)
Inductive FilterKey : Type :=
  | ListKey (field : ListField)
  | CustomCommitmentRangesKey.

(** [selectedFilters[filterType]] for a list field. *)
Definition selected (field : ListField) (sel : SelectedFilters.t) : list string :=
  match field with
  | FLineOfBusiness => SelectedFilters.lineOfBusiness sel
  | FCommitmentSizeGroup => SelectedFilters.commitmentSizeGroup sel
  | FRiskGroup => SelectedFilters.riskGroup sel
  | FBankId => SelectedFilters.bankId sel
  | FRegion => SelectedFilters.region sel
  | FNaicsGrpName => SelectedFilters.naicsGrpName sel
  end.

(** [handleFilterChange(filterType, values)]: [{ ...prev, [filterType]:
    values }].  The panel calls it for list fields only. *)
Definition handleFilterChange (field : ListField) (values : list string)
    (prev : SelectedFilters.t) : SelectedFilters.t :=
  SelectedFilters.mk
    (if field is FLineOfBusiness then values else SelectedFilters.lineOfBusiness prev)
    (if field is FCommitmentSizeGroup then values
     else SelectedFilters.commitmentSizeGroup prev)
    (SelectedFilters.customCommitmentRanges prev)
    (if field is FRiskGroup then values else SelectedFilters.riskGroup prev)
    (if field is FBankId then values else SelectedFilters.bankId prev)
    (if field is FRegion then values else SelectedFilters.region prev)
    (if field is FNaicsGrpName then values else SelectedFilters.naicsGrpName prev).

(** [handleSelectChange(filterType, value)]. *)
Definition handleSelectChange (selectedFilters : SelectedFilters.t)
    (filterType : FilterKey) (value : string) : SelectedFilters.t :=
  match filterType with
  | CustomCommitmentRangesKey => selectedFilters
  | ListKey field =>
      let current := selected field selectedFilters in
      if bool_decide (value ∈ current) then selectedFilters
      else handleFilterChange field (current ++ [value]) selectedFilters
  end.

(** [removeFilter(filterType, value)]. *)
Definition removeFilter (selectedFilters : SelectedFilters.t)
    (filterType : FilterKey) (value : string) : SelectedFilters.t :=
  match filterType with
  | CustomCommitmentRangesKey => selectedFilters
  | ListKey field =>
      let current := selected field selectedFilters in
      handleFilterChange field (filter (λ v, v ≠ value) current) selectedFilters
  end.

(** [handleClearFilters()]. *)
Definition handleClearFilters : SelectedFilters.t :=
  SelectedFilters.mk [] [] [] [] [] [] [].

(** [totalSelectedFilters]: the lengths of all entries, added up. *)
Definition totalSelectedFilters (selectedFilters : SelectedFilters.t) : nat :=
  length (SelectedFilters.lineOfBusiness selectedFilters)
  + length (SelectedFilters.commitmentSizeGroup selectedFilters)
  + length (SelectedFilters.customCommitmentRanges selectedFilters)
  + length (SelectedFilters.riskGroup selectedFilters)
  + length (SelectedFilters.bankId selectedFilters)
  + length (SelectedFilters.region selectedFilters)
  + length (SelectedFilters.naicsGrpName selectedFilters).

(** The [disabled] attribute of the Execute Query button. *)
Definition run_button_disabled (disabled : bool)
    (selectedFilters : SelectedFilters.t) : bool :=
  disabled || (totalSelectedFilters selectedFilters =? 0)%nat.

(** What the user can do in the panel. *)
Inductive panel_event : Type :=
  | SelectValue (filterType : FilterKey) (value : string)
  | RemoveValue (filterType : FilterKey) (value : string)
  | ClearFilters.

Definition panel_step (sel : SelectedFilters.t) (ev : panel_event)
    : SelectedFilters.t :=
  match ev with
  | SelectValue filterType value => handleSelectChange sel filterType value
  | RemoveValue filterType value => removeFilter sel filterType value
  | ClearFilters => handleClearFilters
  end.

Definition panel_run (events : list panel_event) (sel : SelectedFilters.t)
    : SelectedFilters.t :=
  foldl panel_step sel events.

(** A selection with one region and one risk group. *)
Definition pacific_selection : SelectedFilters.t :=
  SelectedFilters.mk [] [] [] ["Low"] [] ["Pacific"] [].

(** Selecting a sequence of values, one after the other. *)
Definition select_values (sel : SelectedFilters.t)
    (selections : list (FilterKey * string)) : SelectedFilters.t :=
  foldl (λ s selection, handleSelectChange s selection.1 selection.2) sel selections.

(** Selecting a second region and a second risk group. *)
Definition further_selections : list (FilterKey * string) :=
  [(ListKey FRegion, "Southwest"); (ListKey FRiskGroup, "High")].

(** ** The row transformation of the data and composites pages *)

(** Truthiness of a key value: [undefined], [null], 0 and the empty string
    are falsy. *)
Definition key_truthy (v : jskey) : bool :=
  match v with
  | KUndefined | KNull => false
  | KNumber n => negb (n =? 0)
  | KString s => negb (bool_decide (s = ""))
  end.

(** [v ? v.toString() : '0']. *)
Definition dateStr_of (v : jskey) : string :=
  if key_truthy v then String_ v else "0".

(** [s.slice(a, b)] for indices that are not negative. *)
Definition slice (a b : nat) (s : string) : string :=
  String.substring a (b - a) s.

(** The expression for [formattedDate] and [formattedPriorDate]. *)
Definition formatDate (dateStr : string) : string :=
  if (String.length dateStr =? 8)%nat
  then slice 0 4 dateStr +:+ "-" +:+ slice 4 6 dateStr +:+ "-" +:+ slice 6 8 dateStr
  else dateStr.

(** * Properties *)

(** ** Binary64 arithmetic

    What the proofs below need from the arithmetic: integers up to 2^53
    are represented and added exactly, and the operations give NaN only in
    the cases the standard lists. *)

Lemma iter_pos_nat {A} (f : A → A) (p : positive) (x : A) :
  SpecFloat.iter_pos f p x = Nat.iter (Pos.to_nat p) f x.
Proof.
  revert x. induction p as [p IH|p IH|]; intros x; cbn [SpecFloat.iter_pos].
  - rewrite !IH, Pos2Nat.inj_xI.
    replace (S (2 * Pos.to_nat p)) with (Pos.to_nat p + S (Pos.to_nat p))%nat by lia.
    by rewrite Nat.iter_add, Nat.iter_succ_r.
  - rewrite !IH, Pos2Nat.inj_xO.
    replace (2 * Pos.to_nat p)%nat with (Pos.to_nat p + Pos.to_nat p)%nat by lia.
    by rewrite Nat.iter_add.
  - done.
Qed.

Lemma Pos_iter_shl (m d : positive) : Pos.iter xO m d = shl m (Pos.to_nat d).
Proof.
  unfold shl. induction d as [|d IH] using Pos.peano_ind.
  - done.
  - by rewrite Pos.iter_succ, IH, Pos2Nat.inj_succ.
Qed.

Lemma shl_shl (m : positive) (n k : nat) : shl (shl m k) n = shl m (n + k).
Proof. unfold shl. by rewrite Nat.iter_add. Qed.

Lemma shl_Z (m : positive) (n : nat) : Z.pos (shl m n) = Z.pos m * 2 ^ Z.of_nat n.
Proof.
  unfold shl. induction n as [|n IH]; [simpl; lia|].
  rewrite Nat.iter_succ, Nat2Z.inj_succ, Z.pow_succ_r by lia.
  rewrite Pos2Z.inj_xO, IH. lia.
Qed.

Lemma digits2_shl (m : positive) (n : nat) :
  Z.pos (digits2_pos (shl m n)) = Z.pos (digits2_pos m) + Z.of_nat n.
Proof.
  unfold shl. induction n as [|n IH]; [simpl; lia|].
  rewrite Nat.iter_succ. cbn [digits2_pos]. lia.
Qed.

(** Shifting right an exact mantissa whose low bits are zero stays exact. *)
Lemma shr_shl (m : positive) (n k : nat) :
  Nat.iter n shr_1 {| shr_m := Z.pos (shl m (n + k)); shr_r := false; shr_s := false |}
  = {| shr_m := Z.pos (shl m k); shr_r := false; shr_s := false |}.
Proof.
  revert k. induction n as [|n IH]; intros k; [done|].
  rewrite Nat.iter_succ. replace (S n + k)%nat with (n + S k)%nat by lia.
  rewrite IH. unfold shl. by rewrite Nat.iter_succ.
Qed.

(** Rounding an exactly representable number: a mantissa of at most 53
    bits, shifted left by [k] bits, at an exponent that leaves the result
    in the normal range. *)
Lemma binary_round_exact (s : bool) (m : positive) (k : nat) (e : Z) :
  let d := Z.pos (digits2_pos m) in
  d ≤ 53 → -1074 ≤ e + Z.of_nat k + d - 53 ≤ 971 →
  binary_round 53 1024 s (shl m k) e =
  S754_finite s (shl m (Z.to_nat (53 - d))) (e + Z.of_nat k + d - 53).
Proof.
  intros d Hd He.
  assert (∀ m53 E, Z.pos (digits2_pos m53) = 53 → -1074 ≤ E ≤ 971 →
            binary_round_aux 53 1024 s (Z.pos m53) E loc_Exact = S754_finite s m53 E)
    as Haux.
  { intros m53 E H53 HE. unfold binary_round_aux, shr_fexp, fexp, emin. cbn [Zdigits2 shr_record_of_loc].
    rewrite H53. replace (Z.max (53 + E - 53) (3 - 1024 - 53) - E) with 0 by lia.
    cbn [shr shr_m loc_of_shr_record round_nearest_even Zdigits2].
    rewrite H53. replace (Z.max (53 + E - 53) (3 - 1024 - 53) - E) with 0 by lia.
    cbn [shr shr_m]. by rewrite (proj2 (Z.leb_le E (1024 - 53))) by lia. }
  unfold binary_round, fexp, emin. rewrite digits2_shl. fold d.
  set (E := e + Z.of_nat k + d - 53).
  replace (Z.max (d + Z.of_nat k + e - 53) (3 - 1024 - 53)) with E by lia.
  assert (Z.pos (digits2_pos (shl m (Z.to_nat (53 - d)))) = 53) as H53
    by (rewrite digits2_shl; fold d; lia).
  unfold shl_align. destruct (E - e) as [|q|q] eqn:Hq.
  - assert (k = Z.to_nat (53 - d)) as Hk by lia. rewrite Hk at 1.
    replace e with E by lia. by apply Haux.
  - unfold binary_round_aux, shr_fexp, fexp, emin. cbn [Zdigits2 shr_record_of_loc].
    rewrite digits2_shl. fold d.
    replace (Z.max (d + Z.of_nat k + e - 53) (3 - 1024 - 53) - e) with (Z.pos q) by lia.
    cbn [shr]. rewrite iter_pos_nat.
    assert (k = (Pos.to_nat q + Z.to_nat (53 - d))%nat) as Hk by lia.
    assert (-1074 ≤ E ≤ 971) as HE by done.
    assert (e + Z.pos q = E) as -> by lia. clearbody E. rewrite Hk, shr_shl.
    cbn [shr_m loc_of_shr_record round_nearest_even Zdigits2]. rewrite H53.
    replace (Z.max (53 + E - 53) (3 - 1024 - 53) - E) with 0 by lia.
    cbn [shr shr_m]. by rewrite (proj2 (Z.leb_le E (1024 - 53))) by lia.
  - rewrite Pos_iter_shl, shl_shl.
    replace (Pos.to_nat q + k)%nat with (Z.to_nat (53 - d)) by lia.
    by apply Haux.
Qed.

Lemma digits2_pos_bound (a : positive) :
  2 ^ (Z.pos (digits2_pos a) - 1) ≤ Z.pos a < 2 ^ Z.pos (digits2_pos a).
Proof.
  induction a as [a IH|a IH|]; cbn [digits2_pos]; [| |simpl; lia].
  all: rewrite Pos2Z.inj_succ.
  all: replace (Z.succ (Z.pos (digits2_pos a)) - 1) with (Z.succ (Z.pos (digits2_pos a) - 1)) by lia.
  all: rewrite !Z.pow_succ_r by lia; lia.
Qed.

Lemma digits2_pos_le (a : positive) (n : Z) :
  0 ≤ n → Z.pos a < 2 ^ n → Z.pos (digits2_pos a) ≤ n.
Proof.
  intros Hn Ha. destruct (digits2_pos_bound a) as [Hlo _].
  destruct (decide (Z.pos (digits2_pos a) ≤ n)) as [|Hgt]; [done|]. exfalso.
  assert (2 ^ n ≤ 2 ^ (Z.pos (digits2_pos a) - 1)) by (apply Z.pow_le_mono_r; lia).
  lia.
Qed.

(** The number literal of a positive integer below 2^53. *)
Lemma num_pos (a : positive) :
  let d := Z.pos (digits2_pos a) in
  d ≤ 53 → num (Z.pos a) = S754_finite false (shl a (Z.to_nat (53 - d))) (d - 53).
Proof.
  intros d Hd. unfold num, binary_normalize.
  change a with (shl a 0) at 1.
  rewrite (binary_round_exact false a 0 0) by (fold d; lia).
  fold d. f_equal; lia.
Qed.

Lemma num_2_53 : num (2 ^ 53) = S754_finite false (shl 1 52) 1.
Proof. by vm_compute. Qed.

Lemma shl_add (a b : positive) (n : nat) :
  (shl a n + shl b n)%positive = shl (a + b) n.
Proof.
  apply Pos2Z.inj. rewrite Pos2Z.inj_add, !shl_Z. lia.
Qed.

Lemma shl_align_shl (a : positive) (j : nat) (e ez : Z) :
  ez ≤ e → (shl_align (shl a j) e ez).1 = shl a (Z.to_nat (e - ez) + j).
Proof.
  intros Hle. unfold shl_align. destruct (ez - e) as [|q|q] eqn:Hq; cbn [fst].
  - by replace (Z.to_nat (e - ez)) with 0%nat by lia.
  - lia.
  - rewrite Pos_iter_shl, shl_shl. f_equal. lia.
Qed.

Lemma js_add_num_pos (a b : positive) :
  Z.pos a + Z.pos b ≤ 2 ^ 53 →
  js_add (num (Z.pos a)) (num (Z.pos b)) = num (Z.pos a + Z.pos b).
Proof.
  intros Hsum.
  set (da := Z.pos (digits2_pos a)). set (db := Z.pos (digits2_pos b)).
  assert (da ≤ 53) as Hda by (apply digits2_pos_le; lia).
  assert (db ≤ 53) as Hdb by (apply digits2_pos_le; lia).
  rewrite (num_pos a), (num_pos b) by done. fold da db.
  unfold js_add, SFadd. cbn [cond_Zopp].
  set (ez := Z.min (da - 53) (db - 53)).
  rewrite !shl_align_shl by lia.
  replace (Z.to_nat (da - 53 - ez) + Z.to_nat (53 - da))%nat with (Z.to_nat (- ez)) by lia.
  replace (Z.to_nat (db - 53 - ez) + Z.to_nat (53 - db))%nat with (Z.to_nat (- ez)) by lia.
  rewrite <-Pos2Z.inj_add, shl_add. unfold binary_normalize.
  destruct (decide (Z.pos a + Z.pos b = 2 ^ 53)) as [Heq|Hne].
  - rewrite Heq, num_2_53.
    assert ((a + b)%positive = shl 1 53) as ->.
    { apply Pos2Z.inj. rewrite Pos2Z.inj_add, Heq. done. }
    rewrite shl_shl.
    rewrite (binary_round_exact false 1 (Z.to_nat (- ez) + 53) ez) by (simpl; lia).
    simpl digits2_pos. f_equal; lia.
  - assert (Z.pos (digits2_pos (a + b)) ≤ 53) as Hd.
    { apply digits2_pos_le; [lia|]. rewrite Pos2Z.inj_add. lia. }
    rewrite <-Pos2Z.inj_add, (num_pos (a + b)) by done.
    rewrite (binary_round_exact false (a + b) (Z.to_nat (- ez)) ez) by lia.
    f_equal. lia.
Qed.

(** Additions of natural numbers are exact up to 2^53. *)
Lemma js_add_num (a b : Z) :
  0 ≤ a → 0 ≤ b → a + b ≤ 2 ^ 53 → js_add (num a) (num b) = num (a + b).
Proof.
  intros Ha Hb Hsum. destruct a as [|a|a], b as [|b|b]; try lia.
  - done.
  - destruct (decide (Z.pos b = 2 ^ 53)) as [->|Hne]; [done|].
    rewrite Z.add_0_l. by rewrite num_pos by (apply digits2_pos_le; lia).
  - destruct (decide (Z.pos a = 2 ^ 53)) as [->|Hne]; [done|].
    rewrite Z.add_0_r. by rewrite num_pos by (apply digits2_pos_le; lia).
  - by apply js_add_num_pos.
Qed.

(** At 2^53 the next integer is not representable: adding 1 changes
    nothing. *)
Lemma js_add_saturated : js_add (num (2 ^ 53)) (num 1) = num (2 ^ 53).
Proof. by vm_compute. Qed.

Lemma js_gt_num_0 (n : Z) : 0 < n ≤ 2 ^ 53 → js_gt (num n) (num 0) = true.
Proof.
  intros Hn. destruct (decide (n = 2 ^ 53)) as [->|Hne]; [by vm_compute|].
  destruct n as [|a|a]; try lia.
  rewrite num_pos by (apply digits2_pos_le; lia). done.
Qed.

(** ** Operations that cannot give NaN *)

Lemma shr_1_nonneg (mrs : shr_record) : 0 ≤ shr_m mrs → 0 ≤ shr_m (shr_1 mrs).
Proof. destruct mrs as [[|[p|p|]|p] r s]; simpl; lia. Qed.

Lemma shr_nonneg (mrs : shr_record) (e n : Z) :
  0 ≤ shr_m mrs → 0 ≤ shr_m (shr mrs e n).1.
Proof.
  intros Hm. destruct n as [|p|p]; cbn [shr fst]; try done.
  rewrite iter_pos_nat. induction (Pos.to_nat p) as [|k IH]; [done|].
  rewrite Nat.iter_succ. by apply shr_1_nonneg.
Qed.

Lemma shr_record_of_loc_m (m : Z) (l : location) : shr_m (shr_record_of_loc m l) = m.
Proof. by destruct l as [|[]]. Qed.

Lemma round_nearest_even_nonneg (m : Z) (l : location) :
  0 ≤ m → 0 ≤ round_nearest_even m l.
Proof. intros Hm. destruct l as [|[]]; simpl; try case_match; lia. Qed.

Lemma binary_round_aux_not_nan (s : bool) (m e : Z) (l : location) :
  0 ≤ m → binary_round_aux 53 1024 s m e l ≠ S754_nan.
Proof.
  intros Hm. unfold binary_round_aux, shr_fexp.
  destruct (shr (shr_record_of_loc m l) e _) as [mrs' e'] eqn:H1.
  destruct (shr (shr_record_of_loc (round_nearest_even _ _) loc_Exact) e' _)
    as [mrs'' e''] eqn:H2.
  assert (0 ≤ shr_m mrs') as Hm'.
  { replace mrs' with (shr (shr_record_of_loc m l) e
      (fexp 53 1024 (Zdigits2 m + e) - e)).1 by (by rewrite H1).
    apply shr_nonneg. by rewrite shr_record_of_loc_m. }
  assert (0 ≤ shr_m mrs'') as Hm''.
  { apply (f_equal fst) in H2. simpl in H2. rewrite <-H2.
    apply shr_nonneg. simpl. by apply round_nearest_even_nonneg. }
  destruct (shr_m mrs''); [done|by case_match|lia].
Qed.

Lemma binary_normalize_not_nan (m e : Z) (szero : bool) :
  binary_normalize 53 1024 m e szero ≠ S754_nan.
Proof.
  destruct m as [|p|p]; [done|..]; unfold binary_normalize, binary_round;
    destruct (shl_align _ _ _); by apply binary_round_aux_not_nan.
Qed.

(** Adding a finite number never turns a number into NaN. *)
Lemma js_add_not_nan (x y : jsnum) :
  isNaN x = false → isFinite y = true → isNaN (js_add x y) = false.
Proof.
  intros Hx Hy. destruct x as [sx|sx| |sx mx ex], y as [sy|sy| |sy my ey]; try done.
  - by destruct sx, sy.
  - unfold js_add, SFadd. by destruct (binary_normalize _ _ _) eqn:Hn;
      [..|by apply binary_normalize_not_nan in Hn|].
Qed.

(** The difference of two finite numbers is not NaN. *)
Lemma js_sub_not_nan (x y : jsnum) :
  isFinite x = true → isFinite y = true → isNaN (js_sub x y) = false.
Proof.
  intros Hx Hy. destruct x as [sx|sx| |sx mx ex], y as [sy|sy| |sy my ey]; try done.
  - by destruct sx, sy.
  - unfold js_sub, SFsub. by destruct (binary_normalize _ _ _) eqn:Hn;
      [..|by apply binary_normalize_not_nan in Hn|].
Qed.

(** Dividing a number by a finite number that is not zero gives NaN only
    when the number is NaN already. *)
Lemma js_div_not_nan (x : jsnum) (sy : bool) (my : positive) (ey : Z) :
  isNaN x = false → isNaN (js_div x (S754_finite sy my ey)) = false.
Proof.
  intros Hx. destruct x as [sx|sx| |sx mx ex]; try done.
  unfold js_div, SFdiv, SFdiv_core_binary.
  set (m' := match _ with Z.pos _ => Z.shiftl _ _ | Z0 => Z.pos mx | Z.neg _ => 0 end).
  assert (0 ≤ m') as Hm'.
  { unfold m'. case_match; try lia. by apply Z.shiftl_nonneg. }
  pose proof (Z.div_eucl_eq m' (Z.pos my) ltac:(done)) as Heq.
  pose proof (Z.mod_pos_bound m' (Z.pos my) ltac:(done)) as Hr.
  unfold Z.modulo in Hr. destruct (Z.div_eucl m' (Z.pos my)) as [q r].
  destruct (binary_round_aux _ _ _ _ _ _) eqn:Hn; try done.
  apply binary_round_aux_not_nan in Hn; [done|]. nia.
Qed.

(** ** Sums computed by a loop *)

Lemma js_sum_snoc (l : list jsnum) (x : jsnum) :
  js_sum (l ++ [x]) = js_add (js_sum l) x.
Proof. unfold js_sum. by rewrite foldl_snoc. Qed.

(** Counting by repeated addition of 1 is exact up to 2^53, where it
    stops. *)
Lemma foldl_add_ones {A} (l : list A) (a : Z) :
  0 ≤ a ≤ 2 ^ 53 →
  foldl js_add (num a) ((λ _, num 1) <$> l) =
  num ((a + Z.of_nat (length l)) `min` 2 ^ 53).
Proof.
  revert a. induction l as [|x l IH]; intros a Ha.
  - simpl. f_equal. lia.
  - cbn [fmap list_fmap foldl length]. destruct (decide (a = 2 ^ 53)) as [->|Hne].
    + rewrite js_add_saturated, IH by lia. f_equal. lia.
    + rewrite js_add_num, IH by lia. f_equal. lia.
Qed.

Lemma js_sum_ones {A} (l : list A) :
  js_sum ((λ _, num 1) <$> l) = num (Z.of_nat (length l) `min` 2 ^ 53).
Proof. unfold js_sum. by rewrite foldl_add_ones by lia. Qed.

Lemma sum_Z_nonneg (zs : list Z) :
  Forall (λ z, 0 ≤ z) zs → 0 ≤ sum_Z zs.
Proof. induction 1 as [|z zs Hz _ IH]; [done|]. unfold sum_Z in *. simpl. lia. Qed.

(** Sums of natural numbers are exact as long as the total is at most
    2^53. *)
Lemma foldl_add_nums (zs : list Z) (a : Z) :
  0 ≤ a → Forall (λ z, 0 ≤ z) zs → a + sum_Z zs ≤ 2 ^ 53 →
  foldl js_add (num a) (num <$> zs) = num (a + sum_Z zs).
Proof.
  intros Ha Hzs. revert a Ha.
  induction Hzs as [|z zs Hz Hzs IH]; intros a Ha Hsum.
  - simpl. f_equal. unfold sum_Z. simpl. lia.
  - change (sum_Z (z :: zs)) with (z + sum_Z zs) in *.
    cbn [fmap list_fmap foldl].
    pose proof (sum_Z_nonneg zs Hzs) as Hrest.
    rewrite js_add_num, IH by lia. f_equal. lia.
Qed.

Lemma js_sum_nums (zs : list Z) :
  Forall (λ z, 0 ≤ z) zs → sum_Z zs ≤ 2 ^ 53 →
  js_sum (num <$> zs) = num (sum_Z zs).
Proof. intros Hzs Hsum. unfold js_sum. by rewrite foldl_add_nums. Qed.

(** Adding a finite number to a number that is not NaN, over a whole
    list. *)
Lemma js_sum_not_nan (l : list jsnum) :
  Forall (λ x, isFinite x = true) l → isNaN (js_sum l) = false.
Proof.
  induction l as [|x l IH] using rev_ind; intros Hl; [done|].
  apply Forall_app in Hl as [Hl Hx]. rewrite Forall_singleton in Hx.
  rewrite js_sum_snoc. apply js_add_not_nan; [by apply IH|done].
Qed.

(** Adding 0 changes no number, except that it turns -0 into +0. *)
Lemma js_add_zero_r (x : jsnum) : x ≠ S754_zero true → js_add x (num 0) = x.
Proof. by destruct x as [[]| | |]. Qed.

(** ** Comparisons *)

Lemma SFcompare_antisym (x y : jsnum) :
  SFcompare x y = CompOpp <$> SFcompare y x.
Proof.
  destruct x as [[]|[]| |[] mx ex], y as [[]|[]| |[] my ey]; simpl; try done.
  all: assert (Pos.compare_cont Eq mx my = CompOpp (Pos.compare_cont Eq my mx))
         as -> by (symmetry; apply (Pos.compare_cont_antisym my mx Eq)).
  all: rewrite (Z.compare_antisym ey ex).
  all: by destruct (ey ?= ex), (Pos.compare_cont _ _ _).
Qed.

Lemma js_ge_false_gt (a b : jsnum) :
  isNaN a = false → isNaN b = false → js_ge a b = false → js_gt b a = true.
Proof.
  unfold js_ge, js_gt, SFleb, SFltb. rewrite (SFcompare_antisym b a).
  intros Ha Hb. destruct (SFcompare a b) as [[]|] eqn:Hc; try done.
  by destruct a as [| | |], b as [| | |]; simpl in Hc; repeat case_match.
Qed.

Lemma js_gt_zero_false (s : bool) : js_gt (S754_zero s) (num 0) = false.
Proof. done. Qed.

(** ** What the engine adds for a row *)

Lemma group_snoc_eq (rows : list RawRow.t) (row : RawRow.t) :
  group (row_key row) (rows ++ [row]) = group (row_key row) rows ++ [row].
Proof. unfold group. rewrite filter_app. f_equal. by rewrite filter_cons_True. Qed.

Lemma group_snoc_ne (k : string) (rows : list RawRow.t) (row : RawRow.t) :
  row_key row ≠ k → group k (rows ++ [row]) = group k rows.
Proof.
  intros Hne. unfold group. rewrite filter_app, filter_cons_False by done.
  by rewrite filter_nil, app_nil_r.
Qed.

Lemma group_nil_iff (k : string) (rows : list RawRow.t) :
  group k rows = [] ↔ ∀ row, row ∈ rows → row_key row ≠ k.
Proof.
  unfold group. split.
  - intros Hnil row Hin Hk.
    assert (row ∈ filter (λ row, row_key row = k) rows) as Hf
      by (by apply list_elem_of_filter).
    rewrite Hnil in Hf. by apply elem_of_nil in Hf.
  - intros Hall. induction rows as [|r rows IH]; [done|].
    rewrite filter_cons_False.
    + apply IH. intros row Hin. apply Hall. by right.
    + apply Hall. by left.
Qed.

Lemma group_agg_snoc_eq (rows : list RawRow.t) (row : RawRow.t) :
  group_agg (row_key row) (rows ++ [row]) =
  let current :=
    if decide (group (row_key row) rows = []) then Agg.zero
    else group_agg (row_key row) rows in
  Agg.mk
    (js_add (Agg.CommitmentAmt current) (finite_or_zero (row_ca row)))
    (js_add (Agg.OutstandingAmt current) (finite_or_zero (row_oa row)))
    (js_add (Agg.Deals current) (num 1)).
Proof.
  unfold group_agg. rewrite group_snoc_eq, !fmap_app, !list_fmap_singleton.
  rewrite !js_sum_snoc. cbn [compose]. case_decide as Hg; [|done].
  by rewrite Hg.
Qed.

(** The map built by the first loop holds, for each key that occurs, the
    aggregate of its group, and nothing else. *)
Lemma build_aggMap_lookup (rows : list RawRow.t) (k : string) :
  build_aggMap rows !! k =
  if decide (group k rows = []) then None else Some (group_agg k rows).
Proof.
  induction rows as [|row rows IH] using rev_ind.
  - done.
  - unfold build_aggMap in *. rewrite foldl_snoc. unfold accumulate at 1.
    destruct (decide (row_key row = k)) as [<-|Hne].
    + rewrite lookup_insert_eq, IH.
      rewrite (decide_False (P := group _ (rows ++ [row]) = [])).
      2:{ rewrite group_snoc_eq. by destruct (group _ rows). }
      f_equal. rewrite group_agg_snoc_eq. simpl. by case_decide.
    + rewrite lookup_insert_ne by done. rewrite IH.
      unfold group_agg. by rewrite group_snoc_ne.
Qed.

(** ** The second loop *)

Lemma emit_records_link (aggMap : gmap string Agg.t)
    (entries : list (string * Agg.t)) (records : list AnalyticsRecord)
    (prev : option Prev) :
  Forall (λ e, aggMap !! e.1 = Some e.2) entries →
  emit_records aggMap entries.*1 records prev = Ok (records ++ link prev entries).
Proof.
  intros Hall. revert records prev.
  induction Hall as [|[key cur] entries Hkey _ IH]; intros records prev; simpl.
  - by rewrite app_nil_r.
  - simpl in Hkey. rewrite Hkey, IH, <-app_assoc. done.
Qed.

(** ** The sorted keys *)

Lemma sorted_dates_elem_of (aggMap : gmap string Agg.t) (k : string) :
  k ∈ sorted_dates aggMap ↔ is_Some (aggMap !! k).
Proof.
  unfold sorted_dates. rewrite merge_sort_Permutation, list_elem_of_fmap. split.
  - intros [[k' a] [-> Hin]]. apply elem_of_map_to_list in Hin. by exists a.
  - intros [a Ha]. exists (k, a). split; [done|]. by apply elem_of_map_to_list.
Qed.

Lemma build_aggMap_is_Some (rows : list RawRow.t) (k : string) :
  is_Some (build_aggMap rows !! k) ↔ k ∈ (row_key <$> rows).
Proof.
  rewrite build_aggMap_lookup, list_elem_of_fmap. case_decide as Hg.
  - rewrite group_nil_iff in Hg. split; [by intros [? ?]|].
    intros [row [-> Hin]]. by destruct (Hg row Hin).
  - split; [|by eauto]. intros _.
    destruct (group k rows) as [|row g] eqn:Heq; [done|].
    assert (row ∈ group k rows) as Hin by (rewrite Heq; left).
    apply list_elem_of_filter in Hin as [Hk Hin]. eauto.
Qed.

Lemma sorted_dates_period_keys (rows : list RawRow.t) :
  sorted_dates (build_aggMap rows) = period_keys rows.
Proof.
  apply (Sorted_unique String.le).
  - apply Sorted_merge_sort, _.
  - apply Sorted_merge_sort, _.
  - apply NoDup_Permutation.
    + unfold sorted_dates. rewrite merge_sort_Permutation.
      apply NoDup_fst_map_to_list.
    + unfold period_keys. rewrite merge_sort_Permutation.
      apply NoDup_remove_dups.
    + intros k. rewrite sorted_dates_elem_of, build_aggMap_is_Some.
      unfold period_keys. by rewrite merge_sort_Permutation, elem_of_remove_dups.
Qed.

Lemma period_keys_elem_of (rows : list RawRow.t) (k : string) :
  k ∈ period_keys rows ↔ k ∈ (row_key <$> rows).
Proof.
  unfold period_keys. by rewrite merge_sort_Permutation, elem_of_remove_dups.
Qed.

Lemma period_keys_NoDup (rows : list RawRow.t) : NoDup (period_keys rows).
Proof.
  unfold period_keys. rewrite merge_sort_Permutation. apply NoDup_remove_dups.
Qed.

Lemma period_keys_sorted (rows : list RawRow.t) :
  StronglySorted String.le (period_keys rows).
Proof. apply StronglySorted_merge_sort; apply _. Qed.

(** The engine computes what the specification describes, and never
    throws. *)
Lemma aggregate_rows_spec (rows : list RawRow.t) :
  aggregate_rows rows = Ok (aggregate_spec rows).
Proof.
  unfold aggregate_rows, aggregate_spec. rewrite sorted_dates_period_keys.
  set (entries := (λ k, (k, group_agg k rows)) <$> period_keys rows).
  replace (period_keys rows) with entries.*1.
  2:{ unfold entries. rewrite <-list_fmap_compose. apply list_fmap_id. }
  apply (emit_records_link _ entries [] None).
  unfold entries. apply Forall_fmap, Forall_forall. intros k Hk. simpl.
  rewrite build_aggMap_lookup. case_decide as Hg; [|done].
  apply period_keys_elem_of, list_elem_of_fmap in Hk as [row [-> Hin]].
  rewrite group_nil_iff in Hg. by destruct (Hg row Hin).
Qed.

(** ** Shape of the output sequence *)

Lemma agg_of_make_record (key : string) (cur : Agg.t) (prev : option Prev) :
  agg_of (make_record key cur prev) = cur.
Proof. by destruct cur. Qed.

Lemma link_keys (prev : option Prev) (entries : list (string * Agg.t)) :
  ProcessingDateKey <$> link prev entries = entries.*1.
Proof.
  revert prev. induction entries as [|[key cur] entries IH]; intros prev;
    simpl; [done|]. by rewrite IH.
Qed.

Lemma link_length (prev : option Prev) (entries : list (string * Agg.t)) :
  length (link prev entries) = length entries.
Proof. by rewrite <-(length_fmap ProcessingDateKey), link_keys, length_fmap. Qed.

Lemma link_elem_of (prev : option Prev) (entries : list (string * Agg.t))
    (r : AnalyticsRecord) :
  r ∈ link prev entries → (ProcessingDateKey r, agg_of r) ∈ entries.
Proof.
  revert prev. induction entries as [|[key cur] entries IH]; intros prev; simpl.
  - by intros ?%elem_of_nil.
  - intros [->|Hin]%elem_of_cons.
    + rewrite agg_of_make_record. by left.
    + right. by eapply IH.
Qed.

(** The first record has no predecessor. *)
Lemma link_head (entries : list (string * Agg.t)) (r : AnalyticsRecord) :
  link None entries !! 0%nat = Some r →
  r = make_record (ProcessingDateKey r) (agg_of r) None.
Proof.
  destruct entries as [|[key cur] entries]; simpl; [done|].
  intros [= <-]. by rewrite agg_of_make_record.
Qed.

(** Every later record is built from its own aggregate and the aggregate of
    the record just before it. *)
Lemma link_follows (prev : option Prev) (entries : list (string * Agg.t))
    (p c : AnalyticsRecord) :
  follows (link prev entries) p c →
  c = make_record (ProcessingDateKey c) (agg_of c)
        (Some (mkPrev (ProcessingDateKey p) (agg_of p))).
Proof.
  intros [i [Hp Hc]]. revert prev entries Hp Hc.
  induction i as [|i IH]; intros prev [|[key cur] entries]; simpl; try done.
  - intros [= <-]. destruct entries as [|[key' cur'] entries]; simpl; [done|].
    intros [= <-]. by rewrite !agg_of_make_record.
  - apply IH.
Qed.

Lemma aggregate_spec_keys (rows : list RawRow.t) :
  ProcessingDateKey <$> aggregate_spec rows = period_keys rows.
Proof.
  unfold aggregate_spec. rewrite link_keys, <-list_fmap_compose.
  apply list_fmap_id.
Qed.

Lemma aggregate_spec_elem_of (rows : list RawRow.t) (r : AnalyticsRecord) :
  r ∈ aggregate_spec rows →
  ProcessingDateKey r ∈ (row_key <$> rows) ∧
  agg_of r = group_agg (ProcessingDateKey r) rows.
Proof.
  intros Hin%link_elem_of. apply list_elem_of_fmap in Hin as [k [Heq Hk]].
  pose proof (f_equal fst Heq) as Hkey. pose proof (f_equal snd Heq) as Hagg.
  simpl in Hkey, Hagg. rewrite Hagg, Hkey. split; [|done].
  by apply period_keys_elem_of.
Qed.

Lemma follows_elem_of (out : list AnalyticsRecord) (p c : AnalyticsRecord) :
  follows out p c → p ∈ out ∧ c ∈ out.
Proof. intros [i [Hp Hc]]. split; by eapply list_elem_of_lookup_2. Qed.

(** ** Decimal numerals *)

Lemma digits_le_value (fuel : nat) (n : Z) :
  0 ≤ n < 2 ^ Z.of_nat fuel → value_le (digits_le fuel n) = n.
Proof.
  revert n. induction fuel as [|f IH]; intros n Hn.
  - simpl in *. lia.
  - rewrite Nat2Z.inj_succ, Z.pow_succ_r in Hn by lia.
    cbn [digits_le]. destruct (Z.eqb_spec (n / 10) 0) as [Hz|Hz].
    + unfold value_le. simpl. Z.div_mod_to_equations. lia.
    + unfold value_le in *. cbn [foldr]. rewrite IH.
      * Z.div_mod_to_equations. lia.
      * Z.div_mod_to_equations. lia.
Qed.

Lemma digits_le_is_digit (fuel : nat) (n : Z) :
  Forall is_digit (digits_le fuel n).
Proof.
  revert n. induction fuel as [|f IH]; intros n; cbn [digits_le]; [done|].
  constructor.
  - unfold is_digit. Z.div_mod_to_equations. lia.
  - by case_match.
Qed.

Lemma digits_le_length (k fuel : nat) (n : Z) :
  10 ^ Z.of_nat k ≤ n < 10 ^ Z.of_nat (S k) → (k < fuel)%nat →
  length (digits_le fuel n) = S k.
Proof.
  revert fuel n. induction k as [|k IH]; intros [|f] n Hn Hf; try lia.
  - cbn [digits_le]. change (10 ^ Z.of_nat 0) with 1 in Hn.
    change (10 ^ Z.of_nat 1) with 10 in Hn.
    destruct (Z.eqb_spec (n / 10) 0) as [Hz|Hz]; [done|].
    exfalso. Z.div_mod_to_equations. lia.
  - cbn [digits_le].
    rewrite !Nat2Z.inj_succ, !Z.pow_succ_r in Hn by lia.
    assert (0 < 10 ^ Z.of_nat k) by (apply Z.pow_pos_nonneg; lia).
    destruct (Z.eqb_spec (n / 10) 0) as [Hz|Hz].
    + exfalso. Z.div_mod_to_equations. lia.
    + cbn [length]. f_equal. apply IH; [|lia].
      rewrite Nat2Z.inj_succ, Z.pow_succ_r by lia.
      Z.div_mod_to_equations. lia.
Qed.

Lemma log2_fuel (n : Z) : 0 ≤ n → n < 2 ^ Z.of_nat (S (Z.to_nat (Z.log2 n))).
Proof.
  intros Hn. rewrite Nat2Z.inj_succ, Z2Nat.id by apply Z.log2_nonneg.
  destruct (decide (n = 0)) as [->|Hne]; [done|].
  apply Z.log2_spec. lia.
Qed.

Lemma digits_value (n : Z) : 0 ≤ n → value_le (reverse (digits n)) = n.
Proof.
  intros Hn. unfold digits. rewrite reverse_involutive.
  apply digits_le_value. split; [done|]. by apply log2_fuel.
Qed.

Lemma digits_is_digit (n : Z) : Forall is_digit (digits n).
Proof. unfold digits. rewrite Forall_reverse. apply digits_le_is_digit. Qed.

Lemma digits_nonempty (n : Z) : digits n ≠ [].
Proof.
  unfold digits. cbn [digits_le]. intros Hnil.
  apply (f_equal length) in Hnil. rewrite length_reverse in Hnil. done.
Qed.

Lemma digits_length (k : nat) (n : Z) :
  10 ^ Z.of_nat k ≤ n < 10 ^ Z.of_nat (S k) → length (digits n) = S k.
Proof.
  intros Hn. unfold digits. rewrite length_reverse.
  apply digits_le_length; [done|].
  assert (0 < 10 ^ Z.of_nat k) by (apply Z.pow_pos_nonneg; lia).
  assert (Z.of_nat k ≤ Z.log2 n); [|lia].
  apply Z.log2_le_pow2; [lia|].
  trans (10 ^ Z.of_nat k); [|lia].
  apply Z.pow_le_mono_l. lia.
Qed.

Lemma value_le_app (l1 l2 : list Z) :
  value_le (l1 ++ l2) = value_le l1 + 10 ^ Z.of_nat (length l1) * value_le l2.
Proof.
  induction l1 as [|d l1 IH].
  - simpl. change (value_le []) with 0. lia.
  - change (value_le ((d :: l1) ++ l2)) with (d + 10 * value_le (l1 ++ l2)).
    change (value_le (d :: l1)) with (d + 10 * value_le l1).
    rewrite IH. cbn [length]. rewrite Nat2Z.inj_succ, Z.pow_succ_r by lia. lia.
Qed.

Lemma value_le_bound (l : list Z) :
  Forall is_digit l → 0 ≤ value_le l < 10 ^ Z.of_nat (length l).
Proof.
  induction 1 as [|d l Hd _ IH].
  - change (value_le []) with 0. simpl. lia.
  - change (value_le (d :: l)) with (d + 10 * value_le l).
    cbn [length]. rewrite Nat2Z.inj_succ, Z.pow_succ_r by lia.
    unfold is_digit in Hd. lia.
Qed.

Lemma value_be_cons (d : Z) (ds : list Z) :
  value_le (reverse (d :: ds)) =
  d * 10 ^ Z.of_nat (length ds) + value_le (reverse ds).
Proof.
  rewrite reverse_cons, value_le_app, length_reverse.
  change (value_le [d]) with (d + 10 * 0). lia.
Qed.

Lemma digit_char_code (d : Z) :
  is_digit d → Ascii.N_of_ascii (digit_char d) = Z.to_N (48 + d).
Proof.
  intros Hd. unfold digit_char, is_digit in *.
  apply Ascii.N_ascii_embedding. lia.
Qed.

Lemma digit_char_compare (a b : Z) :
  is_digit a → is_digit b →
  Ascii.compare (digit_char a) (digit_char b) = (a ?= b).
Proof.
  intros Ha Hb. unfold Ascii.compare. rewrite !digit_char_code by done.
  unfold is_digit in *. rewrite Z2N.inj_compare by lia.
  apply Z.add_compare_mono_l.
Qed.

Lemma digit_char_not_minus (d : Z) :
  is_digit d → digit_char d ≠ minus_sign.
Proof.
  intros Hd Heq. apply (f_equal Ascii.N_of_ascii) in Heq. unfold minus_sign in Heq.
  rewrite digit_char_code, Ascii.N_ascii_embedding in Heq by (done || lia).
  unfold is_digit in Hd. lia.
Qed.

(** On numerals of the same length, code-unit order is numeric order. *)
Lemma string_of_digits_compare (ds1 ds2 : list Z) :
  Forall is_digit ds1 → Forall is_digit ds2 → length ds1 = length ds2 →
  String.compare (string_of_digits ds1) (string_of_digits ds2) =
  (value_le (reverse ds1) ?= value_le (reverse ds2)).
Proof.
  intros H1. revert ds2.
  induction H1 as [|d1 ds1 Hd1 H1 IH]; intros ds2 H2 Hlen.
  - destruct ds2; [done|discriminate].
  - destruct H2 as [|d2 ds2 Hd2 H2]; [discriminate|].
    injection Hlen as Hlen.
    unfold string_of_digits in *. cbn [fmap list_fmap String.string_of_list_ascii
      String.compare].
    rewrite digit_char_compare, !value_be_cons, <-Hlen by done.
    pose proof (value_le_bound (reverse ds1)) as B1.
    pose proof (value_le_bound (reverse ds2)) as B2.
    rewrite Forall_reverse, length_reverse in B1, B2.
    specialize (B1 H1). specialize (B2 H2). rewrite <-Hlen in B2.
    unfold is_digit in *.
    destruct (Z.compare_spec d1 d2) as [->|Hlt|Hgt].
    + rewrite (IH ds2 H2 Hlen). symmetry. apply Z.add_compare_mono_l.
    + symmetry. apply Z.compare_lt_iff. nia.
    + symmetry. apply Z.compare_gt_iff. nia.
Qed.

Lemma string_of_digits_inj (ds1 ds2 : list Z) :
  Forall is_digit ds1 → Forall is_digit ds2 →
  string_of_digits ds1 = string_of_digits ds2 → ds1 = ds2.
Proof.
  intros H1. revert ds2.
  induction H1 as [|d1 ds1 Hd1 H1 IH]; intros ds2 H2 Heq.
  - destruct ds2; [done|discriminate].
  - destruct H2 as [|d2 ds2 Hd2 H2]; [discriminate|].
    unfold string_of_digits in *. simpl in Heq. injection Heq as Hc Hs.
    f_equal; [|by apply IH].
    apply (f_equal Ascii.N_of_ascii) in Hc.
    rewrite !digit_char_code in Hc by done. unfold is_digit in *. lia.
Qed.

(** Distinct integers have distinct numerals. *)
Lemma ToString_int_inj (a b : Z) : ToString_int a = ToString_int b → a = b.
Proof.
  assert (∀ n m, 0 ≤ n → 0 ≤ m →
            string_of_digits (digits n) = string_of_digits (digits m) → n = m)
    as Hpos.
  { intros n m Hn Hm Heq.
    apply string_of_digits_inj in Heq; [|apply digits_is_digit..].
    rewrite <-(digits_value n), <-(digits_value m) by done. by rewrite Heq. }
  assert (∀ n m, string_of_digits (digits n) ≠
            String.String minus_sign (string_of_digits (digits m)))
    as Hsign.
  { intros n m Heq. pose proof (digits_is_digit n) as Hd.
    pose proof (digits_nonempty n) as Hne.
    destruct (digits n) as [|d ds]; [done|].
    unfold string_of_digits in Heq. simpl in Heq. injection Heq as Hc _.
    apply Forall_cons in Hd as [Hd _]. by apply digit_char_not_minus in Hc. }
  unfold ToString_int.
  destruct (Z.ltb_spec a 0), (Z.ltb_spec b 0); intros Heq.
  - injection Heq as Heq. apply Hpos in Heq; lia.
  - symmetry in Heq. by apply Hsign in Heq.
  - by apply Hsign in Heq.
  - apply Hpos in Heq; lia.
Qed.

Global Instance ToString_int_Inj : Inj (=) (=) ToString_int.
Proof. intros a b. apply ToString_int_inj. Qed.

(** Numerals of the same length are ordered as the numbers they denote. *)
Lemma ToString_int_le (k : nat) (a b : Z) :
  10 ^ Z.of_nat k ≤ a < 10 ^ Z.of_nat (S k) →
  10 ^ Z.of_nat k ≤ b < 10 ^ Z.of_nat (S k) →
  String.le (ToString_int a) (ToString_int b) ↔ a ≤ b.
Proof.
  intros Ha Hb.
  assert (0 < 10 ^ Z.of_nat k) by (apply Z.pow_pos_nonneg; lia).
  unfold ToString_int, String.le, String.leb.
  rewrite !(proj2 (Z.ltb_ge _ 0)) by lia.
  rewrite string_of_digits_compare, !digits_value; try lia.
  - destruct (Z.compare_spec a b); simpl; split; (done || lia).
  - apply digits_is_digit.
  - apply digits_is_digit.
  - by rewrite (digits_length k a), (digits_length k b).
Qed.

(** ** Rows sent for well-formed records *)

Lemma row_key_to_row (x : RawRecord) : row_key (to_row x) = ToString_int (periodKey x).
Proof. done. Qed.

Lemma row_ca_to_row (x : RawRecord) : row_ca (to_row x) = commitmentAmount x.
Proof. done. Qed.

Lemma row_oa_to_row (x : RawRecord) : row_oa (to_row x) = outstandingAmount x.
Proof. done. Qed.

Lemma group_to_row (k : Z) (recs : list RawRecord) :
  group (ToString_int k) (to_row <$> recs) = to_row <$> records_of k recs.
Proof.
  unfold group, records_of. induction recs as [|x recs IH]; [done|].
  rewrite fmap_cons, !filter_cons, IH, row_key_to_row.
  destruct (decide (periodKey x = k)) as [->|Hne].
  - by rewrite decide_True.
  - rewrite decide_False; [done|]. by intros ?%ToString_int_inj.
Qed.

Lemma period_keys_to_row (recs : list RawRecord) :
  period_keys (to_row <$> recs) ≡ₚ
  ToString_int <$> remove_dups (periodKey <$> recs).
Proof.
  apply NoDup_Permutation.
  - apply period_keys_NoDup.
  - apply (NoDup_fmap_2 _), NoDup_remove_dups.
  - intros s. rewrite period_keys_elem_of, <-list_fmap_compose.
    rewrite !list_elem_of_fmap. split.
    + intros [x [-> Hx]]. exists (periodKey x). split; [done|].
      apply elem_of_remove_dups, list_elem_of_fmap. eauto.
    + intros [k [-> Hk]].
      apply elem_of_remove_dups, list_elem_of_fmap in Hk as [x [-> Hx]]. eauto.
Qed.

(** On an array of objects the first loop builds the map of the
    aggregation and does not throw. *)
Lemma accumulate_rows_objects (aggMap : gmap string Agg.t) (rows : list RawRow.t) :
  accumulate_rows aggMap (Some <$> rows) = Ok (foldl accumulate aggMap rows).
Proof.
  revert aggMap. induction rows as [|row rows IH]; intros aggMap; [done|].
  simpl. apply IH.
Qed.

(** A [null] element makes the first loop throw. *)
Lemma accumulate_rows_null (aggMap : gmap string Agg.t)
    (rows : list (option RawRow.t)) :
  None ∈ rows → accumulate_rows aggMap rows = Throw TypeError.
Proof.
  revert aggMap. induction rows as [|[row|] rows IH]; intros aggMap Hin.
  - by apply elem_of_nil in Hin.
  - simpl. apply IH. by apply elem_of_cons in Hin as [?|?].
  - done.
Qed.

(** An array is an array of objects unless one of its elements is
    [null]. *)
Lemma objects_or_null (rows : list (option RawRow.t)) :
  (∃ objects : list RawRow.t, rows = Some <$> objects) ∨ None ∈ rows.
Proof.
  induction rows as [|[row|] rows IH].
  - left. by exists [].
  - destruct IH as [[objects ->]|Hin].
    + left. by exists (row :: objects).
    + right. by right.
  - right. by left.
Qed.

Lemma simulateQueryExecution_success
    (response : ApiResponse (option (list (option RawRow.t))))
    (rows : list RawRow.t) :
  success response = true → data response = Some (Some <$> rows) →
  simulateQueryExecution response = Ok (aggregate_spec rows).
Proof.
  intros Hs Hd. unfold simulateQueryExecution.
  rewrite Hs, Hd, accumulate_rows_objects. apply aggregate_rows_spec.
Qed.

Lemma simulateQueryExecution_failure
    (response : ApiResponse (option (list (option RawRow.t)))) :
  success response = false →
  ∃ message, simulateQueryExecution response = Throw (Error message).
Proof. intros Hs. unfold simulateQueryExecution. rewrite Hs. eauto. Qed.

Lemma aggregate_rows_nil : aggregate_rows [] = Ok [].
Proof. by rewrite aggregate_rows_spec. Qed.

(** ** Grouping *)

(** The worked example: two periods of two records each.  The second
    period's commitment ratio is (1600000 - 1500000) / 1500000 in double
    precision, its other two ratios are 0. *)
Example seed_scenario :
  ∃ r1 r2 : AnalyticsRecord,
    aggregate_rows (to_row <$> seed_records) = Ok [r1; r2] ∧
    ProcessingDateKey r1 = "20240131" ∧
    CommitmentAmt r1 = num 1500000 ∧ OutstandingAmt r1 = num 1250000 ∧
    Deals r1 = num 2 ∧ ProcessingDateKeyPrior r1 = "0" ∧
    ca_diff r1 = None ∧ oa_diff r1 = None ∧ deals_diff r1 = None ∧
    ProcessingDateKey r2 = "20240229" ∧
    CommitmentAmt r2 = num 1600000 ∧ OutstandingAmt r2 = num 1250000 ∧
    Deals r2 = num 2 ∧ ProcessingDateKeyPrior r2 = "20240131" ∧
    ca_diff r2 = Some (js_div (num 100000) (num 1500000)) ∧
    oa_diff r2 = Some (num 0) ∧ deals_diff r2 = Some (num 0).
Proof.
  remember (aggregate_rows _) as res eqn:Hres. vm_compute in Hres. subst res.
  eexists _, _. split; [reflexivity|]. simpl. by split_and!; vm_compute.
Qed.

(** The amounts of the sample records are binary64 values. *)
Example sample_amounts_binary64 :
  forallb binary64_amounts
    (seed_records ++ unordered_records ++ zero_prior_records
     ++ negative_prior_records ++ drifting_records ++ overflowing_records
     ++ steep_records) = true.
Proof. by vm_compute. Qed.

Lemma finite_or_zero_finite (x : jsnum) : isFinite (finite_or_zero x) = true.
Proof. unfold finite_or_zero. by destruct (isFinite x) eqn:Hx. Qed.

Lemma finite_or_zero_id (x : jsnum) : isFinite x = true → finite_or_zero x = x.
Proof. intros Hx. unfold finite_or_zero. by rewrite Hx. Qed.

(** The amounts the engine adds up for the records of a period. *)
Lemma group_amounts (k : Z) (recs : list RawRecord) :
  Forall finite_amounts recs →
  (finite_or_zero ∘ row_ca) <$> group (ToString_int k) (to_row <$> recs)
    = commitmentAmount <$> records_of k recs ∧
  (finite_or_zero ∘ row_oa) <$> group (ToString_int k) (to_row <$> recs)
    = outstandingAmount <$> records_of k recs.
Proof.
  intros Hfin. rewrite group_to_row, <-!list_fmap_compose.
  rewrite Forall_forall in Hfin.
  split; apply list_fmap_ext; intros _ x [_ Hx%Hfin]%list_elem_of_lookup_2%list_elem_of_filter;
    destruct Hx as [Hca Hoa]; simpl.
  - rewrite row_ca_to_row. by apply finite_or_zero_id.
  - rewrite row_oa_to_row. by apply finite_or_zero_id.
Qed.

(** C1, as amended.  For every finite collection of records with finite
    amounts the engine returns normally; its output has exactly one row for
    each distinct period key of the input; in the row of a period the total
    commitment and the total outstanding amount are the double-precision
    sums of the respective amounts over the records of that period, added
    in input order, and the deal count is the number of those records (a
    count stops at 2^53, which no array reaches).  The totals are the exact
    sums when the amounts are whole numbers that are not negative and add
    up to at most 2^53.  The empty collection gives the empty sequence. *)
Theorem grouping_correct (recs : list RawRecord) :
  Forall finite_amounts recs →
  ∃ out : list AnalyticsRecord,
    aggregate_rows (to_row <$> recs) = Ok out ∧
    ProcessingDateKey <$> out ≡ₚ
      ToString_int <$> remove_dups (periodKey <$> recs) ∧
    (∀ (r : AnalyticsRecord) (k : Z),
       r ∈ out → ProcessingDateKey r = ToString_int k →
       CommitmentAmt r = js_sum (commitmentAmount <$> records_of k recs) ∧
       OutstandingAmt r = js_sum (outstandingAmount <$> records_of k recs) ∧
       Deals r = num (Z.of_nat (length (records_of k recs)) `min` 2 ^ 53) ∧
       (∀ cs : list Z,
          commitmentAmount <$> records_of k recs = num <$> cs →
          Forall (λ c, 0 ≤ c) cs → sum_Z cs ≤ 2 ^ 53 →
          CommitmentAmt r = num (sum_Z cs)) ∧
       (∀ os : list Z,
          outstandingAmount <$> records_of k recs = num <$> os →
          Forall (λ o, 0 ≤ o) os → sum_Z os ≤ 2 ^ 53 →
          OutstandingAmt r = num (sum_Z os))) ∧
    aggregate_rows [] = Ok [].
Proof.
  intros Hfin. exists (aggregate_spec (to_row <$> recs)).
  split; [apply aggregate_rows_spec|].
  split; [rewrite aggregate_spec_keys; apply period_keys_to_row|].
  split; [|apply aggregate_rows_nil].
  intros r k Hin Hkey. apply aggregate_spec_elem_of in Hin as [_ Hagg].
  rewrite Hkey in Hagg. unfold group_agg in Hagg.
  destruct (group_amounts k recs Hfin) as [Hcas Hoas].
  rewrite Hcas, Hoas, js_sum_ones, group_to_row, length_fmap in Hagg.
  pose proof (f_equal Agg.CommitmentAmt Hagg) as Hca.
  pose proof (f_equal Agg.OutstandingAmt Hagg) as Hoa.
  pose proof (f_equal Agg.Deals Hagg) as Hd.
  simpl in Hca, Hoa, Hd. split_and!; try done.
  - intros cs Hcs Hpos Hsum. rewrite Hca, Hcs. by apply js_sum_nums.
  - intros os Hos Hpos Hsum. rewrite Hoa, Hos. by apply js_sum_nums.
Qed.

Lemma grouping_correct_witness :
  Forall finite_amounts seed_records ∧
  ∃ out : list AnalyticsRecord,
    aggregate_rows (to_row <$> seed_records) = Ok out ∧
    ProcessingDateKey <$> out ≡ₚ
      ToString_int <$> remove_dups (periodKey <$> seed_records) ∧
    (∀ (r : AnalyticsRecord) (k : Z),
       r ∈ out → ProcessingDateKey r = ToString_int k →
       CommitmentAmt r = js_sum (commitmentAmount <$> records_of k seed_records) ∧
       OutstandingAmt r = js_sum (outstandingAmount <$> records_of k seed_records) ∧
       Deals r = num (Z.of_nat (length (records_of k seed_records)) `min` 2 ^ 53) ∧
       (∀ cs : list Z,
          commitmentAmount <$> records_of k seed_records = num <$> cs →
          Forall (λ c, 0 ≤ c) cs → sum_Z cs ≤ 2 ^ 53 →
          CommitmentAmt r = num (sum_Z cs)) ∧
       (∀ os : list Z,
          outstandingAmount <$> records_of k seed_records = num <$> os →
          Forall (λ o, 0 ≤ o) os → sum_Z os ≤ 2 ^ 53 →
          OutstandingAmt r = num (sum_Z os))) ∧
    aggregate_rows [] = Ok [].
Proof.
  assert (Forall finite_amounts seed_records) as Hfin
    by (repeat constructor).
  split; [exact Hfin|]. exact (grouping_correct seed_records Hfin).
Defined.

(** C1, counterexample.  One period with the three finite commitments
    2^53, 1 and 1, which are whole numbers: their sum is 2^53 + 2, but the
    total commitment of the period's row is 2^53, because 2^53 + 1 rounds
    back to 2^53 each time 1 is added. *)
Lemma total_is_not_the_sum :
  Forall finite_amounts drifting_records ∧
  integer_value <$> (commitmentAmount <$> drifting_records)
    = [Some (2 ^ 53); Some 1; Some 1] ∧
  ∃ r : AnalyticsRecord,
    aggregate_rows (to_row <$> drifting_records) = Ok [r] ∧
    integer_value (CommitmentAmt r) = Some (2 ^ 53) ∧
    integer_value (CommitmentAmt r) ≠ Some (2 ^ 53 + 1 + 1).
Proof.
  split; [repeat constructor|]. split; [by vm_compute|].
  remember (aggregate_rows _) as res eqn:Hres. vm_compute in Hres. subst res.
  eexists. split; [reflexivity|]. simpl. split; [by vm_compute|].
  vm_compute. discriminate.
Qed.

(** ** Chronological order *)

Lemma valid_yyyymmdd_eight_digits (k : Z) :
  valid_yyyymmdd k = true → 10 ^ Z.of_nat 7 ≤ k < 10 ^ Z.of_nat 8.
Proof.
  unfold valid_yyyymmdd. cbv zeta. rewrite !andb_true_iff, !Z.leb_le.
  change (10 ^ Z.of_nat 7) with 10000000. change (10 ^ Z.of_nat 8) with 100000000.
  intros. Z.div_mod_to_equations. lia.
Qed.

Lemma StronglySorted_strict (ks : list Z) :
  StronglySorted Z.le ks → NoDup ks → StronglySorted Z.lt ks.
Proof.
  induction 1 as [|k ks Hs IH Hall]; intros Hnd; [constructor|].
  apply NoDup_cons in Hnd as [Hnotin Hnd]. constructor; [by apply IH|].
  rewrite Forall_forall in Hall |- *. intros k' Hin.
  specialize (Hall k' Hin). assert (k ≠ k') by (by intros ->). lia.
Qed.

Lemma StronglySorted_ToString_int (n : nat) (ks : list Z) :
  Forall (λ k, 10 ^ Z.of_nat n ≤ k < 10 ^ Z.of_nat (S n)) ks →
  StronglySorted Z.le ks → StronglySorted String.le (ToString_int <$> ks).
Proof.
  intros Hdig. induction 1 as [|k ks Hs IH Hall]; [constructor|].
  apply Forall_cons in Hdig as [Hk Hdig]. rewrite fmap_cons.
  constructor; [by apply IH|].
  rewrite Forall_fmap, Forall_forall. intros k' Hin. simpl.
  rewrite Forall_forall in Hall, Hdig.
  apply (ToString_int_le n); auto.
Qed.

Lemma distinct_periods_perm (recs : list RawRecord) :
  distinct_periods recs ≡ₚ remove_dups (periodKey <$> recs).
Proof. apply merge_sort_Permutation. Qed.

Lemma distinct_periods_ascending (recs : list RawRecord) :
  StronglySorted Z.lt (distinct_periods recs).
Proof.
  apply StronglySorted_strict.
  - apply StronglySorted_merge_sort; apply _.
  - rewrite distinct_periods_perm. apply NoDup_remove_dups.
Qed.

(** With eight-digit keys, sorting the key strings by code units is
    sorting the periods numerically. *)
Lemma period_keys_valid (recs : list RawRecord) :
  Forall (λ x, valid_yyyymmdd (periodKey x) = true) recs →
  period_keys (to_row <$> recs) = ToString_int <$> distinct_periods recs.
Proof.
  intros Hvalid. apply (Sorted_unique String.le).
  - apply Sorted_merge_sort, _.
  - apply StronglySorted_Sorted, (StronglySorted_ToString_int 7).
    + rewrite Forall_forall. intros k Hk.
      rewrite distinct_periods_perm, elem_of_remove_dups in Hk.
      apply list_elem_of_fmap in Hk as [x [-> Hx]].
      rewrite Forall_forall in Hvalid.
      by apply valid_yyyymmdd_eight_digits, Hvalid.
    + apply StronglySorted_merge_sort; apply _.
  - rewrite period_keys_to_row. apply fmap_Permutation. symmetry.
    apply distinct_periods_perm.
Qed.

(** C5.  For records whose period keys are valid YYYYMMDD dates, the output
    rows carry the distinct period keys of the input in strictly ascending
    numeric order; in particular no key occurs twice. *)
Theorem output_strictly_ascending (recs : list RawRecord) :
  Forall (λ x, valid_yyyymmdd (periodKey x) = true) recs →
  ∃ (out : list AnalyticsRecord) (ks : list Z),
    aggregate_rows (to_row <$> recs) = Ok out ∧
    ProcessingDateKey <$> out = ToString_int <$> ks ∧
    StronglySorted Z.lt ks ∧
    ks ≡ₚ remove_dups (periodKey <$> recs) ∧
    NoDup (ProcessingDateKey <$> out).
Proof.
  intros Hvalid.
  exists (aggregate_spec (to_row <$> recs)), (distinct_periods recs).
  rewrite aggregate_rows_spec, aggregate_spec_keys.
  split; [done|]. split; [by apply period_keys_valid|].
  split; [apply distinct_periods_ascending|].
  split; [apply distinct_periods_perm|]. apply period_keys_NoDup.
Qed.

Lemma output_strictly_ascending_witness :
  Forall (λ x, valid_yyyymmdd (periodKey x) = true) unordered_records ∧
  ∃ (out : list AnalyticsRecord) (ks : list Z),
    aggregate_rows (to_row <$> unordered_records) = Ok out ∧
    ProcessingDateKey <$> out = ToString_int <$> ks ∧
    StronglySorted Z.lt ks ∧
    ks ≡ₚ remove_dups (periodKey <$> unordered_records) ∧
    NoDup (ProcessingDateKey <$> out).
Proof.
  assert (Forall (λ x, valid_yyyymmdd (periodKey x) = true) unordered_records)
    as Hvalid by (repeat constructor).
  split; [exact Hvalid|].
  exact (output_strictly_ascending unordered_records Hvalid).
Defined.

(** ** Records of the output *)

Lemma aggregate_spec_nonempty (rows : list RawRow.t) :
  rows ≠ [] → ∃ first rest, aggregate_spec rows = first :: rest.
Proof.
  intros Hne. destruct (aggregate_spec rows) as [|first rest] eqn:Hout; [|eauto].
  apply (f_equal (fmap ProcessingDateKey)) in Hout.
  rewrite aggregate_spec_keys in Hout. destruct rows as [|row rows]; [done|].
  assert (row_key row ∈ period_keys (row :: rows)) as Hin
    by (apply period_keys_elem_of; left).
  rewrite Hout in Hin. by apply elem_of_nil in Hin.
Qed.

Lemma aggregate_spec_length (rows : list RawRow.t) :
  length (aggregate_spec rows) = length (remove_dups (row_key <$> rows)).
Proof.
  rewrite <-(length_fmap ProcessingDateKey), aggregate_spec_keys.
  unfold period_keys. by rewrite merge_sort_Permutation.
Qed.

Lemma aggregate_spec_head (rows : list RawRow.t) (first : AnalyticsRecord)
    (rest : list AnalyticsRecord) :
  aggregate_spec rows = first :: rest →
  first = make_record (ProcessingDateKey first) (agg_of first) None.
Proof.
  intros Hout. apply (link_head ((λ k, (k, group_agg k rows)) <$> period_keys rows)).
  fold (aggregate_spec rows). by rewrite Hout.
Qed.

Lemma aggregate_spec_follows (rows : list RawRow.t) (p c : AnalyticsRecord) :
  follows (aggregate_spec rows) p c →
  c = make_record (ProcessingDateKey c) (agg_of c)
        (Some (mkPrev (ProcessingDateKey p) (agg_of p))).
Proof. apply link_follows. Qed.

(** A record of the output is the first one, or follows another one. *)
Lemma output_record_cases (out : list AnalyticsRecord) (r : AnalyticsRecord) :
  r ∈ out → out !! 0%nat = Some r ∨ ∃ p, follows out p r.
Proof.
  intros [[|i] Hi]%list_elem_of_lookup; [by left|]. right.
  destruct (lookup_lt_is_Some_2 out i) as [p Hp].
  { apply lookup_lt_Some in Hi. lia. }
  exists p, i. done.
Qed.

(** The aggregate of an output record: a deal count between 1 and 2^53,
    and totals that are not NaN. *)
Lemma aggregate_spec_agg (rows : list RawRow.t) (r : AnalyticsRecord) :
  r ∈ aggregate_spec rows →
  (∃ n : Z, Deals r = num n ∧ 1 ≤ n ≤ 2 ^ 53) ∧
  isNaN (CommitmentAmt r) = false ∧ isNaN (OutstandingAmt r) = false.
Proof.
  intros [Hkey Hagg]%aggregate_spec_elem_of.
  pose proof (f_equal Agg.CommitmentAmt Hagg) as Hca.
  pose proof (f_equal Agg.OutstandingAmt Hagg) as Hoa.
  pose proof (f_equal Agg.Deals Hagg) as Hd.
  unfold group_agg in Hca, Hoa, Hd. simpl in Hca, Hoa, Hd.
  rewrite Hca, Hoa, Hd, js_sum_ones. split_and!.
  - eexists. split; [done|].
    apply list_elem_of_fmap in Hkey as [row [Hk Hin]].
    assert (row ∈ group (ProcessingDateKey r) rows) as Hg
      by (by apply list_elem_of_filter).
    destruct (group (ProcessingDateKey r) rows); [by apply elem_of_nil in Hg|].
    simpl. lia.
  - apply js_sum_not_nan, Forall_fmap, Forall_forall. intros row _.
    apply finite_or_zero_finite.
  - apply js_sum_not_nan, Forall_fmap, Forall_forall. intros row _.
    apply finite_or_zero_finite.
Qed.

(** Every output record was built from its own aggregate and, except for
    the first record, from the aggregate of the record before it. *)
Lemma output_record_built (rows : list RawRow.t) (r : AnalyticsRecord) :
  r ∈ aggregate_spec rows →
  ∃ prev : option Prev,
    r = make_record (ProcessingDateKey r) (agg_of r) prev ∧
    ∀ p, prev = Some p →
      ∃ r', follows (aggregate_spec rows) r' r ∧
            p = mkPrev (ProcessingDateKey r') (agg_of r').
Proof.
  intros Hr. destruct (output_record_cases _ r Hr) as [Hfirst|[p Hp]].
  - exists None. split; [|done].
    apply (link_head ((λ k, (k, group_agg k rows)) <$> period_keys rows)), Hfirst.
  - exists (Some (mkPrev (ProcessingDateKey p) (agg_of p))).
    split; [by apply (aggregate_spec_follows rows)|].
    intros p' [= <-]. by exists p.
Qed.

(** ** Change ratios *)

(** A ratio is computed exactly when there is a predecessor whose aggregate
    is greater than 0. *)
Lemma diff_ratio_Some (p : Prev) (f : Agg.t → jsnum) (cur : Agg.t) :
  diff_ratio (Some p) f cur =
  if js_gt (f (prev_agg p)) (num 0)
  then Some (change_ratio (f cur) (f (prev_agg p))) else None.
Proof. done. Qed.

(** A number greater than 0 is a positive finite number or the positive
    infinity. *)
Lemma js_gt_0_inv (x : jsnum) :
  js_gt x (num 0) = true →
  x = Infinity ∨ ∃ (m : positive) (e : Z), x = S754_finite false m e.
Proof. destruct x as [[]|[]| |[] m e]; try done; eauto. Qed.

(** The ratio of two finite aggregates, the prior one greater than 0, is
    not NaN. *)
Lemma change_ratio_not_nan (cur prior : jsnum) :
  isFinite cur = true → isFinite prior = true → js_gt prior (num 0) = true →
  isNaN (change_ratio cur prior) = false.
Proof.
  intros Hcur Hprior [->|(m & e & ->)]%js_gt_0_inv; [done|].
  apply js_div_not_nan. by apply js_sub_not_nan.
Qed.

(** The three ratio columns are built alike, each from its own
    aggregate. *)
Lemma ratio_column_built (diff : AnalyticsRecord → option jsnum)
    (total : AnalyticsRecord → jsnum) :
  (diff, total) ∈ ratio_columns →
  ∃ f : Agg.t → jsnum,
    (∀ r, total r = f (agg_of r)) ∧
    (∀ key cur prev, diff (make_record key cur prev) = diff_ratio prev f cur).
Proof.
  unfold ratio_columns. intros Hcol.
  repeat (apply elem_of_cons in Hcol as [[= -> ->]|Hcol]);
    [by exists Agg.CommitmentAmt|by exists Agg.OutstandingAmt|
     by exists Agg.Deals|by apply elem_of_nil in Hcol].
Qed.

(** The ratio of a period that has a predecessor. *)
Lemma aggregate_spec_ratio (rows : list RawRow.t) (p c : AnalyticsRecord)
    (diff : AnalyticsRecord → option jsnum) (total : AnalyticsRecord → jsnum) :
  follows (aggregate_spec rows) p c → (diff, total) ∈ ratio_columns →
  diff c =
  if js_gt (total p) (num 0)
  then Some (change_ratio (total c) (total p)) else None.
Proof.
  intros Hf%aggregate_spec_follows (f & Htotal & Hdiff)%ratio_column_built.
  rewrite Hf at 1. rewrite Hdiff, diff_ratio_Some. cbn [prev_agg].
  by rewrite <-!Htotal.
Qed.

(** A deal count of the output is a finite number greater than 0. *)
Lemma aggregate_spec_deals (rows : list RawRow.t) (r : AnalyticsRecord) :
  r ∈ aggregate_spec rows →
  isFinite (Deals r) = true ∧ js_gt (Deals r) (num 0) = true.
Proof.
  intros ((n & -> & Hn) & _)%aggregate_spec_agg.
  split; [|apply js_gt_num_0; lia].
  destruct (decide (n = 2 ^ 53)) as [->|Hne]; [done|].
  destruct n as [|a|a]; try lia.
  by rewrite num_pos by (apply digits2_pos_le; lia).
Qed.

(** C2, as amended.  For every output period that has a predecessor, each
    change ratio is decided by the predecessor's aggregate: when that
    aggregate is strictly greater than 0 the ratio is (current - prior) /
    prior in double precision, and otherwise it is null.  The prior deal
    count is always greater than 0.  When the two aggregates are finite the
    ratio is not NaN. *)
Theorem change_ratio_positive_prior (rows : list RawRow.t) :
  ∃ out : list AnalyticsRecord,
    aggregate_rows rows = Ok out ∧
    ∀ p c : AnalyticsRecord, follows out p c →
      ca_diff c =
        (if js_gt (CommitmentAmt p) (num 0)
         then Some (change_ratio (CommitmentAmt c) (CommitmentAmt p)) else None) ∧
      oa_diff c =
        (if js_gt (OutstandingAmt p) (num 0)
         then Some (change_ratio (OutstandingAmt c) (OutstandingAmt p)) else None) ∧
      deals_diff c = Some (change_ratio (Deals c) (Deals p)) ∧
      (∀ x, isFinite (CommitmentAmt p) = true → isFinite (CommitmentAmt c) = true →
            ca_diff c = Some x → isNaN x = false) ∧
      (∀ x, isFinite (OutstandingAmt p) = true → isFinite (OutstandingAmt c) = true →
            oa_diff c = Some x → isNaN x = false) ∧
      (∀ x, deals_diff c = Some x → isNaN x = false).
Proof.
  exists (aggregate_spec rows). split; [apply aggregate_rows_spec|].
  intros p c Hf. destruct (follows_elem_of _ p c Hf) as [Hp Hc].
  apply aggregate_spec_deals in Hp as [Hfp Hgt].
  apply aggregate_spec_deals in Hc as [Hfc _].
  pose proof (aggregate_spec_ratio rows p c ca_diff CommitmentAmt Hf) as Hca.
  pose proof (aggregate_spec_ratio rows p c oa_diff OutstandingAmt Hf) as Hoa.
  pose proof (aggregate_spec_ratio rows p c deals_diff Deals Hf) as Hd.
  unfold ratio_columns in Hca, Hoa, Hd.
  rewrite Hca, Hoa, Hd by (rewrite !elem_of_cons; auto). rewrite Hgt.
  split_and!; try done.
  - intros x Hp' Hc'.
    destruct (js_gt (CommitmentAmt p) (num 0)) eqn:Hg; intros [= <-].
    by apply change_ratio_not_nan.
  - intros x Hp' Hc'.
    destruct (js_gt (OutstandingAmt p) (num 0)) eqn:Hg; intros [= <-].
    by apply change_ratio_not_nan.
  - intros x [= <-]. by apply change_ratio_not_nan.
Qed.

(** C2, counterexample.  Two periods, the first with total commitment -100
    and the second with total commitment 50: the prior aggregate is neither
    null nor zero, yet the commitment ratio of the second period is null,
    not (50 / -100) - 1.  And on the worked example, where the totals are
    1500000 and 1600000, the ratio is the double (1600000 - 1500000) /
    1500000, which is not the double (1600000 / 1500000) - 1. *)
Lemma change_ratio_negative_prior_null :
  (∃ p c : AnalyticsRecord,
     aggregate_rows (to_row <$> negative_prior_records) = Ok [p; c] ∧
     CommitmentAmt p = num (-100) ∧
     CommitmentAmt p ≠ num 0 ∧
     CommitmentAmtPrior c = num (-100) ∧
     CommitmentAmt c = num 50 ∧
     ca_diff c = None) ∧
  (∃ p c : AnalyticsRecord,
     aggregate_rows (to_row <$> seed_records) = Ok [p; c] ∧
     CommitmentAmt p = num 1500000 ∧
     CommitmentAmt c = num 1600000 ∧
     ca_diff c = Some (change_ratio (num 1600000) (num 1500000)) ∧
     ca_diff c ≠ Some (js_sub (js_div (num 1600000) (num 1500000)) (num 1))).
Proof.
  split.
  - remember (aggregate_rows _) as res eqn:Hres. vm_compute in Hres. subst res.
    eexists _, _. split; [reflexivity|]. simpl.
    by split_and!; vm_compute.
  - remember (aggregate_rows _) as res eqn:Hres. vm_compute in Hres. subst res.
    eexists _, _. split; [reflexivity|]. simpl.
    by split_and!; vm_compute.
Qed.

(** ** The first period *)

(** C6.  For every non-empty input the engine returns normally with a
    non-empty sequence whose first record is the earliest period; that
    record has the prior period key "0" and its three change ratios are
    null.  The sequence has one record per distinct key, so an input of a
    single period gives exactly this one record. *)
Theorem first_period_sentinel (rows : list RawRow.t) :
  rows ≠ [] →
  ∃ (first : AnalyticsRecord) (rest : list AnalyticsRecord),
    aggregate_rows rows = Ok (first :: rest) ∧
    ProcessingDateKeyPrior first = "0" ∧
    ca_diff first = None ∧ oa_diff first = None ∧ deals_diff first = None ∧
    Forall (λ r, String.le (ProcessingDateKey first) (ProcessingDateKey r) ∧
                 ProcessingDateKey first ≠ ProcessingDateKey r) rest ∧
    length (first :: rest) = length (remove_dups (row_key <$> rows)).
Proof.
  intros Hne. destruct (aggregate_spec_nonempty rows Hne) as [first [rest Hout]].
  exists first, rest. rewrite aggregate_rows_spec, Hout. split; [done|].
  pose proof (aggregate_spec_head rows first rest Hout) as Hfirst.
  split_and!; try by rewrite Hfirst.
  - pose proof (period_keys_sorted rows) as Hs.
    pose proof (period_keys_NoDup rows) as Hnd.
    rewrite <-aggregate_spec_keys, Hout, fmap_cons in Hs, Hnd.
    apply StronglySorted_cons in Hs as [Hs _].
    apply NoDup_cons in Hnd as [Hnd _].
    rewrite Forall_fmap in Hs. rewrite Forall_forall in Hs |- *.
    intros r Hr. split; [by apply Hs|].
    intros Heq. apply Hnd. rewrite Heq. by apply list_elem_of_fmap_2.
  - by rewrite <-Hout, aggregate_spec_length.
Qed.

Lemma first_period_sentinel_witness :
  single_period_rows ≠ [] ∧
  ∃ (first : AnalyticsRecord) (rest : list AnalyticsRecord),
    aggregate_rows single_period_rows = Ok (first :: rest) ∧
    ProcessingDateKeyPrior first = "0" ∧
    ca_diff first = None ∧ oa_diff first = None ∧ deals_diff first = None ∧
    Forall (λ r, String.le (ProcessingDateKey first) (ProcessingDateKey r) ∧
                 ProcessingDateKey first ≠ ProcessingDateKey r) rest ∧
    length (first :: rest) = length (remove_dups (row_key <$> single_period_rows)).
Proof.
  assert (single_period_rows ≠ []) as Hne by discriminate.
  split; [exact Hne|]. exact (first_period_sentinel single_period_rows Hne).
Defined.

(** C3, as amended.  For every non-empty input, the three prior aggregate
    fields of the first record are the number 0. *)
Theorem first_period_prior_fields_zero (rows : list RawRow.t) :
  rows ≠ [] →
  ∃ (first : AnalyticsRecord) (rest : list AnalyticsRecord),
    aggregate_rows rows = Ok (first :: rest) ∧
    CommitmentAmtPrior first = num 0 ∧
    OutstandingAmtPrior first = num 0 ∧
    DealsPrior first = num 0.
Proof.
  intros Hne. destruct (aggregate_spec_nonempty rows Hne) as [first [rest Hout]].
  exists first, rest. rewrite aggregate_rows_spec, Hout. split; [done|].
  pose proof (aggregate_spec_head rows first rest Hout) as Hfirst.
  split_and!; by rewrite Hfirst.
Qed.

Lemma first_period_prior_fields_zero_witness :
  single_period_rows ≠ [] ∧
  ∃ (first : AnalyticsRecord) (rest : list AnalyticsRecord),
    aggregate_rows single_period_rows = Ok (first :: rest) ∧
    CommitmentAmtPrior first = num 0 ∧
    OutstandingAmtPrior first = num 0 ∧
    DealsPrior first = num 0.
Proof.
  assert (single_period_rows ≠ []) as Hne by discriminate.
  split; [exact Hne|].
  exact (first_period_prior_fields_zero single_period_rows Hne).
Defined.

(** C3, counterexample.  A single record of period 20240131: the one output
    record carries the finite number 0 in each of its three prior aggregate
    fields, a numeric sentinel and not null. *)
Lemma first_period_prior_fields_not_null :
  ∃ first : AnalyticsRecord,
    aggregate_rows single_period_rows = Ok [first] ∧
    CommitmentAmtPrior first = num 0 ∧ isFinite (CommitmentAmtPrior first) = true ∧
    OutstandingAmtPrior first = num 0 ∧ isFinite (OutstandingAmtPrior first) = true ∧
    DealsPrior first = num 0 ∧ isFinite (DealsPrior first) = true.
Proof.
  remember (aggregate_rows _) as res eqn:Hres. vm_compute in Hres. subst res.
  eexists. split; [reflexivity|]. simpl. by split_and!.
Qed.

(** ** Zero priors *)

(** The zero-prior scenario: a period with total commitment 500 after a
    period with total commitment 0 has a null commitment ratio. *)
Example zero_prior_scenario :
  ∃ r1 r2 : AnalyticsRecord,
    aggregate_rows (to_row <$> zero_prior_records) = Ok [r1; r2] ∧
    CommitmentAmt r1 = num 0 ∧ CommitmentAmt r2 = num 500 ∧
    CommitmentAmtPrior r2 = num 0 ∧ ca_diff r2 = None.
Proof.
  remember (aggregate_rows _) as res eqn:Hres. vm_compute in Hres. subst res.
  eexists _, _. split; [reflexivity|]. simpl. by split_and!; vm_compute.
Qed.

Lemma js_eq_zero_not_gt (x : jsnum) :
  SFeqb x (num 0) = true → js_gt x (num 0) = false.
Proof. unfold js_gt. by destruct x as [[]|[]| |[] m e]; vm_compute. Qed.

(** C4.  The engine returns normally for every input.  For every output
    period with a predecessor whose aggregate equals 0 (either zero of the
    doubles) the corresponding change ratio is null: it is no number, so
    neither Infinity nor NaN.  No division by zero takes place at all: a
    change ratio that is not null is the quotient by the aggregate of the
    preceding period, which is then greater than 0. *)
Theorem zero_prior_ratio_null (rows : list RawRow.t) :
  ∃ out : list AnalyticsRecord,
    aggregate_rows rows = Ok out ∧
    (∀ p c : AnalyticsRecord, follows out p c →
       (SFeqb (CommitmentAmt p) (num 0) = true → ca_diff c = None) ∧
       (SFeqb (OutstandingAmt p) (num 0) = true → oa_diff c = None) ∧
       (SFeqb (Deals p) (num 0) = true → deals_diff c = None)) ∧
    (∀ (c : AnalyticsRecord) (x : jsnum), c ∈ out →
       ∀ diff total, (diff, total) ∈ ratio_columns → diff c = Some x →
       ∃ p : AnalyticsRecord,
         follows out p c ∧ js_gt (total p) (num 0) = true ∧
         x = change_ratio (total c) (total p)).
Proof.
  exists (aggregate_spec rows). split; [apply aggregate_rows_spec|]. split.
  - intros p c Hc%aggregate_spec_follows.
    set (prev := mkPrev (ProcessingDateKey p) (agg_of p)) in Hc.
    assert (∀ f : Agg.t → jsnum, SFeqb (f (agg_of p)) (num 0) = true →
              diff_ratio (Some prev) f (agg_of c) = None) as Hzero.
    { intros f Hz%js_eq_zero_not_gt. rewrite diff_ratio_Some.
      cbn [prev_agg prev]. by rewrite Hz. }
    split_and!; intros Hz; rewrite Hc.
    + exact (Hzero Agg.CommitmentAmt Hz).
    + exact (Hzero Agg.OutstandingAmt Hz).
    + exact (Hzero Agg.Deals Hz).
  - intros c x Hc diff total Hcol Hx.
    destruct (output_record_cases _ c Hc) as [Hfirst|[p Hfol]].
    { apply (link_head ((λ k, (k, group_agg k rows)) <$> period_keys rows))
        in Hfirst.
      destruct (ratio_column_built diff total Hcol) as (f & _ & Hdiff).
      rewrite Hfirst, Hdiff in Hx. done. }
    rewrite (aggregate_spec_ratio rows p c diff total Hfol Hcol) in Hx.
    destruct (js_gt (total p) (num 0)) eqn:Hgt; [|done].
    injection Hx as <-. by exists p.
Qed.

(** After a prior aggregate that is not 0 a ratio can still fail to be a
    finite number.  Two finite commitments of 2^1023 in one period total
    Infinity, which is greater than 0, so the ratio of the next period,
    whose total is 5, is computed: it is (5 - Infinity) / Infinity, that is
    NaN.  And after a period with total 2^-1000 a period with total 2^1000
    has the ratio Infinity, the quotient being too large for a double. *)
Example ratio_after_overflow :
  (Forall finite_amounts overflowing_records ∧
   ∃ p c : AnalyticsRecord,
     aggregate_rows (to_row <$> overflowing_records) = Ok [p; c] ∧
     CommitmentAmt p = Infinity ∧ CommitmentAmt c = num 5 ∧
     ca_diff c = Some NaN) ∧
  (Forall finite_amounts steep_records ∧
   ∃ p c : AnalyticsRecord,
     aggregate_rows (to_row <$> steep_records) = Ok [p; c] ∧
     isFinite (CommitmentAmt p) = true ∧ isFinite (CommitmentAmt c) = true ∧
     ca_diff c = Some Infinity).
Proof.
  split; (split; [repeat constructor|]).
  - remember (aggregate_rows _) as res eqn:Hres. vm_compute in Hres. subst res.
    eexists _, _. split; [reflexivity|]. simpl. by split_and!; vm_compute.
  - remember (aggregate_rows _) as res eqn:Hres. vm_compute in Hres. subst res.
    eexists _, _. split; [reflexivity|]. simpl. by split_and!; vm_compute.
Qed.

(** ** Deal counts *)

(** C9.  Every output row has a deal count of at least 1; hence for every
    output period with a predecessor the prior deal count is at least 1 and
    the deal-count ratio is not null. *)
Theorem deals_at_least_one (rows : list RawRow.t) :
  ∃ out : list AnalyticsRecord,
    aggregate_rows rows = Ok out ∧
    (∀ r : AnalyticsRecord, r ∈ out → ∃ n : Z, Deals r = num n ∧ 1 ≤ n) ∧
    (∀ p c : AnalyticsRecord, follows out p c →
       (∃ n : Z, DealsPrior c = num n ∧ 1 ≤ n) ∧ is_Some (deals_diff c)).
Proof.
  exists (aggregate_spec rows). split; [apply aggregate_rows_spec|].
  assert (∀ r, r ∈ aggregate_spec rows → ∃ n : Z, Deals r = num n ∧ 1 ≤ n ≤ 2 ^ 53)
    as Hdeals by (by intros r [? _]%aggregate_spec_agg).
  split.
  { intros r (n & Hn & Hpos)%Hdeals. exists n. split; [done|lia]. }
  intros p c Hc.
  destruct (follows_elem_of _ p c Hc) as [Hp Hcin].
  apply aggregate_spec_follows in Hc.
  destruct (Hdeals p Hp) as (n & Hn & Hpos).
  split.
  - exists n. rewrite Hc. split; [done|lia].
  - set (prev := mkPrev (ProcessingDateKey p) (agg_of p)) in Hc. rewrite Hc.
    change (is_Some (diff_ratio (Some prev) Agg.Deals (agg_of c))).
    rewrite diff_ratio_Some. cbn [prev_agg prev agg_of Agg.Deals].
    rewrite Hn, js_gt_num_0 by lia. done.
Qed.

(** ** Missing and non-finite amounts *)

Lemma contribution_row_ca (row : RawRow.t) :
  finite_or_zero (row_ca row) = field_contribution (ca_field row).
Proof.
  unfold row_ca, ca_field.
  by destruct (RawRow.CommitmentAmt row), (RawRow.commitmentamt row).
Qed.

Lemma contribution_row_oa (row : RawRow.t) :
  finite_or_zero (row_oa row) = field_contribution (oa_field row).
Proof.
  unfold row_oa, oa_field.
  by destruct (RawRow.OutstandingAmt row), (RawRow.outstandingamt row).
Qed.

(** C10, as amended.  The engine returns normally for every input and
    drops no row: every row's period is in the output, the deal count of a
    period counts all its rows (up to 2^53), and each total is the
    double-precision sum of what the amount fields contribute, which is 0
    for a field that is missing or not finite and the amount itself
    otherwise; adding 0 leaves a total as it is.  The totals are never
    NaN. *)
Theorem nonfinite_amount_counts_as_zero (rows : list RawRow.t) :
  ∃ out : list AnalyticsRecord,
    aggregate_rows rows = Ok out ∧
    (∀ row : RawRow.t, row ∈ rows →
       ∃ r, r ∈ out ∧ ProcessingDateKey r = row_key row) ∧
    (∀ r : AnalyticsRecord, r ∈ out →
       let rows_of_period := group (ProcessingDateKey r) rows in
       Deals r = num (Z.of_nat (length rows_of_period) `min` 2 ^ 53) ∧
       CommitmentAmt r =
         js_sum ((field_contribution ∘ ca_field) <$> rows_of_period) ∧
       OutstandingAmt r =
         js_sum ((field_contribution ∘ oa_field) <$> rows_of_period) ∧
       isNaN (CommitmentAmt r) = false ∧ isNaN (OutstandingAmt r) = false) ∧
    (∀ v : jsamt, missing_or_nonfinite v → field_contribution v = num 0) ∧
    (∀ x : jsnum, isFinite x = true → field_contribution (ANumber x) = x) ∧
    (∀ total : jsnum, total ≠ S754_zero true → js_add total (num 0) = total).
Proof.
  exists (aggregate_spec rows). split; [apply aggregate_rows_spec|].
  split_and!.
  - intros row Hrow.
    assert (row_key row ∈ ProcessingDateKey <$> aggregate_spec rows) as Hin.
    { rewrite aggregate_spec_keys. apply period_keys_elem_of.
      by apply list_elem_of_fmap_2. }
    apply list_elem_of_fmap in Hin as [r [Hk Hr]]. eauto.
  - intros r Hr. cbv zeta.
    destruct (aggregate_spec_agg rows r Hr) as (_ & Hnca & Hnoa).
    apply aggregate_spec_elem_of in Hr as [_ Hagg].
    pose proof (f_equal Agg.CommitmentAmt Hagg) as Hca.
    pose proof (f_equal Agg.OutstandingAmt Hagg) as Hoa.
    pose proof (f_equal Agg.Deals Hagg) as Hd.
    unfold group_agg in Hca, Hoa, Hd. simpl in Hca, Hoa, Hd.
    rewrite js_sum_ones in Hd. split_and!; try done.
    + rewrite Hca. f_equal. apply list_fmap_ext. intros _ row _. simpl.
      apply contribution_row_ca.
    + rewrite Hoa. f_equal. apply list_fmap_ext. intros _ row _. simpl.
      apply contribution_row_oa.
  - intros [| |x]; simpl; try done. by intros ->.
  - intros x Hx. simpl. by rewrite Hx.
  - apply js_add_zero_r.
Qed.

(** C10, counterexample.  Two finite commitments of 2^1023 in one period:
    no amount is missing or non-finite, yet the period's total commitment
    is Infinity, not a finite number. *)
Lemma total_can_overflow :
  Forall finite_amounts overflowing_records ∧
  ∃ p c : AnalyticsRecord,
    aggregate_rows (to_row <$> overflowing_records) = Ok [p; c] ∧
    CommitmentAmt p = Infinity ∧ isFinite (CommitmentAmt p) = false.
Proof.
  split; [repeat constructor|].
  remember (aggregate_rows _) as res eqn:Hres. vm_compute in Hres. subst res.
  eexists _, _. split; [reflexivity|]. simpl. by split_and!; vm_compute.
Qed.

(** ** The custom range form *)

Section range_builder_properties.
Variable parseFloat : string → jsnum.
Variable trim : string → string.

(** A submission adds at most one range, and only one whose minimum is
    strictly below its maximum. *)
Lemma handleSubmit_ranges (now : Z) (st st' : BuilderState) :
  handleSubmit parseFloat trim now st = Ok st' →
  customCommitmentRanges st' = customCommitmentRanges st ∨
  ∃ range,
    customCommitmentRanges st' = customCommitmentRanges st ++ [range] ∧
    js_ge (CustomCommitmentRange.min range) (CustomCommitmentRange.max range)
      = false.
Proof.
  unfold handleSubmit. cbv zeta.
  destruct (isNaN _ || isNaN _ || js_ge _ _ || bool_decide _) eqn:Hguard.
  - intros [= <-]. by left.
  - intros [= <-]. right. eexists. split; [done|]. simpl.
    by apply orb_false_iff in Hguard as [[_ Hge]%orb_false_iff _].
Qed.

(** The handler returns normally on every form. *)
Lemma handleSubmit_returns (now : Z) (st : BuilderState) :
  ∃ st', handleSubmit parseFloat trim now st = Ok st'.
Proof. unfold handleSubmit. cbv zeta. case_match; eauto. Qed.
End range_builder_properties.

(** C7, as amended.  When the minimum typed into the form is greater than
    or equal to the maximum, the submission is ignored: the handler returns
    normally, raises no error, and leaves the form, the dialog and the list
    of custom ranges as they were, so no such range is added to the filter
    specification. *)
Theorem invalid_range_ignored (parseFloat : string → jsnum)
    (trim : string → string) (now : Z) (st : BuilderState) :
  js_ge (parseFloat (RangeForm.min (rangeForm st)))
        (parseFloat (RangeForm.max (rangeForm st))) = true →
  handleSubmit parseFloat trim now st = Ok st.
Proof.
  intros Hge. unfold handleSubmit. cbv zeta. rewrite Hge.
  by rewrite orb_true_r.
Qed.

Lemma invalid_range_ignored_witness :
  js_ge (sample_parseFloat (RangeForm.min (rangeForm equal_bounds_state)))
        (sample_parseFloat (RangeForm.max (rangeForm equal_bounds_state)))
    = true ∧
  handleSubmit sample_parseFloat sample_trim 1700000000000 equal_bounds_state
    = Ok equal_bounds_state.
Proof.
  split; [by vm_compute|].
  apply (invalid_range_ignored sample_parseFloat sample_trim
           1700000000000 equal_bounds_state).
  by vm_compute.
Defined.

(** C7, counterexample.  Submitting the form with minimum 5 and maximum 5
    does not fail: the handler returns normally with the state unchanged,
    and throws no error of any kind. *)
Lemma invalid_range_no_error :
  handleSubmit sample_parseFloat sample_trim 1700000000000 equal_bounds_state
    = Ok equal_bounds_state ∧
  ∀ e : js_error,
    handleSubmit sample_parseFloat sample_trim 1700000000000 equal_bounds_state
      ≠ Throw e.
Proof. split; [by vm_compute|]. intros e. vm_compute. discriminate. Qed.

(** ** The request of the dashboard page *)

Lemma nonempty_or_undefined_admits (l : list string) (v : string) :
  l = [] → list_filter_admits (nonempty_or_undefined l) v = true.
Proof. by intros ->. Qed.



(** * Further properties of the engine *)

Lemma group_cons (k : string) (row : RawRow.t) (rows : list RawRow.t) :
  group k (row :: rows) =
  if decide (row_key row = k) then row :: group k rows else group k rows.
Proof. unfold group. by rewrite filter_cons. Qed.

Lemma period_keys_groups (rows1 rows2 : list RawRow.t) :
  (∀ k, group k rows1 = group k rows2) → period_keys rows1 = period_keys rows2.
Proof.
  intros Hgroups. apply (Sorted_unique String.le).
  - apply Sorted_merge_sort, _.
  - apply Sorted_merge_sort, _.
  - apply NoDup_Permutation; [apply period_keys_NoDup..|].
    assert (∀ rows k, k ∈ period_keys rows ↔ group k rows ≠ []) as Hiff.
    { intros rows k. rewrite period_keys_elem_of, group_nil_iff, list_elem_of_fmap.
      split.
      - intros (row & -> & Hrow) Hall. by apply (Hall row).
      - intros Hne. destruct (decide (Exists (λ row, row_key row = k) rows))
          as [Hex|Hnex].
        + apply Exists_exists in Hex as (row & Hrow & <-). eauto.
        + destruct Hne. intros row Hrow Hk. apply Hnex, Exists_exists. eauto. }
    intros k. by rewrite !Hiff, Hgroups.
Qed.

(** X1.  The output depends on the rows only through the rows of each
    period, taken in their order: two responses in which every period has
    the same rows in the same order aggregate to the same sequence of
    records, however the periods are interleaved. *)
Theorem aggregate_rows_interleaving_independent (rows1 rows2 : list RawRow.t) :
  (∀ k, group k rows1 = group k rows2) →
  aggregate_rows rows1 = aggregate_rows rows2.
Proof.
  intros Hgroups. rewrite !aggregate_rows_spec. f_equal. unfold aggregate_spec.
  rewrite (period_keys_groups rows1 rows2 Hgroups). f_equal.
  apply list_fmap_ext. intros _ k _. f_equal. unfold group_agg.
  by rewrite Hgroups.
Qed.

Lemma aggregate_rows_interleaving_independent_witness :
  (∀ k, group k (to_row <$> unordered_records)
        = group k (to_row <$> reinterleaved_records)) ∧
  aggregate_rows (to_row <$> unordered_records) =
  aggregate_rows (to_row <$> reinterleaved_records).
Proof.
  assert (∀ k, group k (to_row <$> unordered_records)
               = group k (to_row <$> reinterleaved_records)) as Hgroups.
  { intros k. unfold unordered_records, reinterleaved_records.
    rewrite !fmap_cons, !group_cons, !row_key_to_row. cbn [periodKey sample_record].
    destruct (decide (ToString_int 20240229 = k)) as [<-|Hne1];
      destruct (decide (ToString_int 20240131 = _)) as [Heq|Hne2]; try done. }
  split; [exact Hgroups|].
  exact (aggregate_rows_interleaving_independent _ _ Hgroups).
Defined.

(** Within a period the order of the rows matters: the commitments 2^53, 1
    and 1 total 2^53 in this order and 2^53 + 2 in the opposite order. *)
Example order_within_period_matters :
  drifting_records_reversed = reverse drifting_records ∧
  ∃ r r' : AnalyticsRecord,
    aggregate_rows (to_row <$> drifting_records) = Ok [r] ∧
    aggregate_rows (to_row <$> drifting_records_reversed) = Ok [r'] ∧
    integer_value (CommitmentAmt r) = Some (2 ^ 53) ∧
    integer_value (CommitmentAmt r') = Some (2 ^ 53 + 2).
Proof.
  split; [done|].
  remember (aggregate_rows (to_row <$> drifting_records)) as res eqn:Hres.
  remember (aggregate_rows (to_row <$> drifting_records_reversed)) as res' eqn:Hres'.
  vm_compute in Hres, Hres'. subst res res'.
  eexists _, _. split; [reflexivity|]. split; [reflexivity|]. simpl.
  by split; vm_compute.
Qed.

(** ** Conservation *)

Lemma sum_Z_cons (z : Z) (l : list Z) : sum_Z (z :: l) = z + sum_Z l.
Proof. done. Qed.

Lemma sum_Z_zeros {A} (l : list A) : sum_Z ((λ _, 0) <$> l) = 0.
Proof. induction l as [|x l IH]; [done|]. rewrite fmap_cons, sum_Z_cons. lia. Qed.

Lemma sum_Z_indicator (ks : list string) (k0 : string) (x : Z) :
  NoDup ks →
  sum_Z ((λ k, if decide (k0 = k) then x else 0) <$> ks) =
  if decide (k0 ∈ ks) then x else 0.
Proof.
  induction 1 as [|k ks Hnotin Hnd IH]; [done|].
  rewrite fmap_cons, sum_Z_cons, IH.
  destruct (decide (k0 = k)) as [->|Hne].
  - rewrite decide_False by done. rewrite decide_True by (by left). lia.
  - destruct (decide (k0 ∈ ks)) as [Hin|Hnin].
    + rewrite decide_True by (by right). lia.
    + rewrite decide_False; [lia|]. by intros [?|?]%elem_of_cons.
Qed.

Lemma sum_Z_groups_cons (f : RawRow.t → Z) (ks : list string) (row : RawRow.t)
    (rows : list RawRow.t) :
  sum_Z ((λ k, sum_Z (f <$> group k (row :: rows))) <$> ks) =
  sum_Z ((λ k, if decide (row_key row = k) then f row else 0) <$> ks)
  + sum_Z ((λ k, sum_Z (f <$> group k rows)) <$> ks).
Proof.
  induction ks as [|k ks IH]; [done|].
  rewrite !fmap_cons, !sum_Z_cons, IH, group_cons.
  case_decide; [rewrite fmap_cons, sum_Z_cons|]; lia.
Qed.

(** Summing a quantity over the groups of all keys sums it over all rows. *)
Lemma sum_Z_groups (f : RawRow.t → Z) (ks : list string) (rows : list RawRow.t) :
  NoDup ks → (∀ row, row ∈ rows → row_key row ∈ ks) →
  sum_Z ((λ k, sum_Z (f <$> group k rows)) <$> ks) = sum_Z (f <$> rows).
Proof.
  intros Hnd. induction rows as [|row rows IH]; intros Hks.
  - apply sum_Z_zeros.
  - rewrite sum_Z_groups_cons, sum_Z_indicator, IH by
      (done || (intros r Hr; apply Hks; by right)).
    rewrite decide_True by (apply Hks; by left). done.
Qed.

Lemma sum_Z_group_bounds (f : RawRow.t → Z) (k : string) (rows : list RawRow.t) :
  (∀ row, row ∈ rows → 0 ≤ f row) →
  0 ≤ sum_Z (f <$> group k rows) ≤ sum_Z (f <$> rows).
Proof.
  induction rows as [|row rows IH]; intros Hpos; [done|].
  assert (0 ≤ f row) by (apply Hpos; by left).
  assert (0 ≤ sum_Z (f <$> group k rows) ≤ sum_Z (f <$> rows)) as IH'
    by (apply IH; intros r Hr; apply Hpos; by right).
  rewrite group_cons, fmap_cons, sum_Z_cons.
  case_decide; [rewrite fmap_cons, sum_Z_cons|]; lia.
Qed.

Lemma aggregate_spec_aggs (rows : list RawRow.t) :
  agg_of <$> aggregate_spec rows =
  (λ k, group_agg k rows) <$> period_keys rows.
Proof.
  unfold aggregate_spec. generalize (period_keys rows) (@None Prev).
  intros ks. induction ks as [|k ks IH]; intros prev; [done|].
  rewrite !fmap_cons. cbn [link]. rewrite fmap_cons, agg_of_make_record.
  f_equal. apply IH.
Qed.

(** A column of whole numbers: the sums over the periods, added up, give
    the sum over all rows. *)
Lemma js_sum_groups (c : RawRow.t → jsnum) (z : RawRow.t → Z)
    (rows : list RawRow.t) :
  (∀ row, row ∈ rows → 0 ≤ z row ∧ c row = num (z row)) →
  sum_Z (z <$> rows) ≤ 2 ^ 53 →
  js_sum ((λ k, js_sum (c <$> group k rows)) <$> period_keys rows)
  = num (sum_Z (z <$> rows)).
Proof.
  intros Hrows Hsum.
  assert (∀ k, js_sum (c <$> group k rows) = num (sum_Z (z <$> group k rows)))
    as Hgroup.
  { intros k.
    assert (c <$> group k rows = num <$> (z <$> group k rows)) as ->.
    { rewrite <-list_fmap_compose. apply list_fmap_ext.
      intros _ row [_ Hrow]%list_elem_of_lookup_2%list_elem_of_filter.
      by destruct (Hrows row Hrow) as [_ ->]. }
    apply js_sum_nums.
    - apply Forall_fmap, Forall_forall.
      intros row [_ Hrow]%list_elem_of_filter. by destruct (Hrows row Hrow).
    - pose proof (sum_Z_group_bounds z k rows) as Hb.
      assert (∀ row, row ∈ rows → 0 ≤ z row) as Hpos
        by (intros row Hrow; by destruct (Hrows row Hrow)).
      specialize (Hb Hpos). lia. }
  assert (∀ row, row ∈ rows → 0 ≤ z row) as Hpos
    by (intros row Hrow; by destruct (Hrows row Hrow)).
  assert ((λ k, js_sum (c <$> group k rows)) <$> period_keys rows
          = num <$> ((λ k, sum_Z (z <$> group k rows)) <$> period_keys rows)) as ->.
  { rewrite <-list_fmap_compose. apply list_fmap_ext. intros _ k _. apply Hgroup. }
  assert (sum_Z ((λ k, sum_Z (z <$> group k rows)) <$> period_keys rows)
          = sum_Z (z <$> rows)) as Htotal.
  { apply sum_Z_groups; [apply period_keys_NoDup|].
    intros row Hrow. apply period_keys_elem_of. by apply list_elem_of_fmap_2. }
  rewrite js_sum_nums, Htotal; [done| |lia].
  apply Forall_fmap, Forall_forall. intros k _. simpl.
  by apply sum_Z_group_bounds.
Qed.

(** X2.  On rows whose amounts are whole numbers that are not negative,
    with totals of at most 2^53, no row is lost or counted twice and no
    amount is lost: over the whole output the deal counts add up to the
    number of rows, and the commitment and outstanding totals add up to the
    sums of the amounts of all rows. *)
Theorem totals_conserved (ca oa : RawRow.t → Z) (rows : list RawRow.t) :
  Forall (whole_amounts ca oa) rows →
  sum_Z (ca <$> rows) ≤ 2 ^ 53 → sum_Z (oa <$> rows) ≤ 2 ^ 53 →
  Z.of_nat (length rows) ≤ 2 ^ 53 →
  ∃ out : list AnalyticsRecord,
    aggregate_rows rows = Ok out ∧
    js_sum (Deals <$> out) = num (Z.of_nat (length rows)) ∧
    js_sum (CommitmentAmt <$> out) = num (sum_Z (ca <$> rows)) ∧
    js_sum (OutstandingAmt <$> out) = num (sum_Z (oa <$> rows)).
Proof.
  intros Hwhole Hca Hoa Hlen. rewrite Forall_forall in Hwhole.
  exists (aggregate_spec rows). split; [apply aggregate_rows_spec|].
  pose proof (aggregate_spec_aggs rows) as Haggs.
  assert (sum_Z ((λ _, 1) <$> rows) = Z.of_nat (length rows)) as Hones.
  { clear. induction rows as [|row rows IH]; [done|].
    rewrite fmap_cons, sum_Z_cons, IH. cbn [length]. lia. }
  split_and!.
  - change Deals with (Agg.Deals ∘ agg_of).
    rewrite list_fmap_compose, Haggs, <-list_fmap_compose, <-Hones.
    apply (js_sum_groups (λ _, num 1) (λ _, 1)); [|lia].
    intros row _. split; [lia|done].
  - change CommitmentAmt with (Agg.CommitmentAmt ∘ agg_of).
    rewrite list_fmap_compose, Haggs, <-list_fmap_compose.
    apply (js_sum_groups (finite_or_zero ∘ row_ca) ca); [|done].
    intros row (? & ? & Hc & _)%Hwhole. split; [done|].
    simpl. by rewrite contribution_row_ca.
  - change OutstandingAmt with (Agg.OutstandingAmt ∘ agg_of).
    rewrite list_fmap_compose, Haggs, <-list_fmap_compose.
    apply (js_sum_groups (finite_or_zero ∘ row_oa) oa); [|done].
    intros row (? & ? & _ & Ho)%Hwhole. split; [done|].
    simpl. by rewrite contribution_row_oa.
Qed.

Lemma totals_conserved_witness :
  Forall (whole_amounts (whole_contribution ∘ ca_field) (whole_contribution ∘ oa_field))
    (to_row <$> seed_records) ∧
  sum_Z ((whole_contribution ∘ ca_field) <$> (to_row <$> seed_records)) ≤ 2 ^ 53 ∧
  sum_Z ((whole_contribution ∘ oa_field) <$> (to_row <$> seed_records)) ≤ 2 ^ 53 ∧
  Z.of_nat (length (to_row <$> seed_records)) ≤ 2 ^ 53 ∧
  ∃ out : list AnalyticsRecord,
    aggregate_rows (to_row <$> seed_records) = Ok out ∧
    js_sum (Deals <$> out) = num (Z.of_nat (length (to_row <$> seed_records))) ∧
    js_sum (CommitmentAmt <$> out) =
      num (sum_Z ((whole_contribution ∘ ca_field) <$> (to_row <$> seed_records))) ∧
    js_sum (OutstandingAmt <$> out) =
      num (sum_Z ((whole_contribution ∘ oa_field) <$> (to_row <$> seed_records))).
Proof.
  assert (Forall (whole_amounts (whole_contribution ∘ ca_field)
                    (whole_contribution ∘ oa_field)) (to_row <$> seed_records))
    as H1 by (repeat constructor; by vm_compute).
  assert (sum_Z ((whole_contribution ∘ ca_field) <$> (to_row <$> seed_records))
            ≤ 2 ^ 53) as H2 by (by vm_compute).
  assert (sum_Z ((whole_contribution ∘ oa_field) <$> (to_row <$> seed_records))
            ≤ 2 ^ 53) as H3 by (by vm_compute).
  assert (Z.of_nat (length (to_row <$> seed_records)) ≤ 2 ^ 53) as H4
    by (by vm_compute).
  split; [exact H1|]. split; [exact H2|]. split; [exact H3|]. split; [exact H4|].
  exact (totals_conserved _ _ (to_row <$> seed_records) H1 H2 H3 H4).
Defined.

(** ** Linkage to the preceding period *)

Lemma StronglySorted_lookup_lt {A} (R : relation A) (l : list A) (i j : nat)
    (x y : A) :
  StronglySorted R l → l !! i = Some x → l !! j = Some y → (i < j)%nat → R x y.
Proof.
  intros Hs. revert i j. induction Hs as [|a l Hs IH Hall]; intros i j Hi Hj Hlt.
  - done.
  - destruct j as [|j]; [lia|]. destruct i as [|i]; simpl in *.
    + injection Hi as <-. rewrite Forall_forall in Hall.
      by eapply Hall, list_elem_of_lookup_2.
    + apply (IH i j); [done..|lia].
Qed.

(** X3.  Every record after the first carries in its four prior fields the
    key and the three aggregates of the record just before it, and that
    record is its immediate predecessor in key order: its key is smaller,
    and no other output key lies between the two. *)
Theorem prior_fields_copy_predecessor (rows : list RawRow.t) :
  ∃ out : list AnalyticsRecord,
    aggregate_rows rows = Ok out ∧
    ∀ p c : AnalyticsRecord, follows out p c →
      ProcessingDateKeyPrior c = ProcessingDateKey p ∧
      CommitmentAmtPrior c = CommitmentAmt p ∧
      OutstandingAmtPrior c = OutstandingAmt p ∧
      DealsPrior c = Deals p ∧
      String.le (ProcessingDateKey p) (ProcessingDateKey c) ∧
      ProcessingDateKey p ≠ ProcessingDateKey c ∧
      ∀ r : AnalyticsRecord, r ∈ out →
        String.le (ProcessingDateKey r) (ProcessingDateKey p) ∨
        String.le (ProcessingDateKey c) (ProcessingDateKey r).
Proof.
  exists (aggregate_spec rows). split; [apply aggregate_rows_spec|].
  intros p c Hf. pose proof (aggregate_spec_follows rows p c Hf) as Hc.
  split_and!; try (by rewrite Hc).
  all: destruct Hf as (i & Hp & Hci).
  all: pose proof (period_keys_sorted rows) as Hs.
  all: pose proof (period_keys_NoDup rows) as Hnd.
  all: rewrite <-aggregate_spec_keys in Hs, Hnd.
  all: assert (∀ j r, aggregate_spec rows !! j = Some r →
         (ProcessingDateKey <$> aggregate_spec rows) !! j = Some (ProcessingDateKey r))
         as Hkey by (intros j r Hj; by rewrite list_lookup_fmap, Hj).
  - apply (StronglySorted_lookup_lt _ _ i (S i) _ _ Hs); auto.
  - intros Heq.
    pose proof (NoDup_lookup _ i (S i) _ Hnd (Hkey _ _ Hp)) as Hij.
    rewrite Heq in Hij. specialize (Hij (Hkey _ _ Hci)). lia.
  - intros r [j Hj]%list_elem_of_lookup.
    destruct (decide (j < i)%nat) as [Hlt|Hge].
    + left. apply (StronglySorted_lookup_lt _ _ j i _ _ Hs); auto.
    + destruct (decide (j = i)) as [->|Hne].
      { left. rewrite Hp in Hj. by injection Hj as ->. }
      destruct (decide (j = S i)) as [->|Hne'].
      { right. rewrite Hci in Hj. by injection Hj as ->. }
      right. apply (StronglySorted_lookup_lt _ _ (S i) j _ _ Hs); auto. lia.
Qed.

(** X4.  The three model-diff fields are null in every record of every
    output. *)
Theorem model_diffs_always_null (rows : list RawRow.t) :
  ∃ out : list AnalyticsRecord,
    aggregate_rows rows = Ok out ∧
    ∀ r : AnalyticsRecord, r ∈ out →
      ca_model_diff r = None ∧ oa_model_diff r = None ∧
      deals_model_diff r = None.
Proof.
  exists (aggregate_spec rows). split; [apply aggregate_rows_spec|].
  intros r Hr. destruct (output_record_built rows r Hr) as (prev & -> & _).
  done.
Qed.

(** ** Column names and missing keys *)

(** The output depends on a row only through its key string and through
    what its two amounts contribute. *)
Lemma aggregate_spec_ext (rows1 rows2 : list RawRow.t) :
  Forall2 (λ r1 r2, row_key r1 = row_key r2 ∧
                    finite_or_zero (row_ca r1) = finite_or_zero (row_ca r2) ∧
                    finite_or_zero (row_oa r1) = finite_or_zero (row_oa r2))
    rows1 rows2 →
  aggregate_spec rows1 = aggregate_spec rows2.
Proof.
  intros Hall.
  assert (row_key <$> rows1 = row_key <$> rows2) as Hkeys.
  { induction Hall as [|r1 r2 l1 l2 (Hk & _) _ IH]; [done|].
    by rewrite !fmap_cons, Hk, IH. }
  assert (∀ k,
            (finite_or_zero ∘ row_ca) <$> group k rows1
              = (finite_or_zero ∘ row_ca) <$> group k rows2 ∧
            (finite_or_zero ∘ row_oa) <$> group k rows1
              = (finite_or_zero ∘ row_oa) <$> group k rows2 ∧
            length (group k rows1) = length (group k rows2)) as Hgroup.
  { intros k. clear Hkeys.
    induction Hall as [|r1 r2 l1 l2 (Hk & Hca & Hoa) _ (IH1 & IH2 & IH3)]; [done|].
    rewrite !group_cons, Hk. case_decide; [|done].
    rewrite !fmap_cons. cbn [length compose]. by rewrite Hca, Hoa, IH1, IH2, IH3. }
  assert (∀ k, group_agg k rows1 = group_agg k rows2) as Hagg.
  { intros k. destruct (Hgroup k) as (H1 & H2 & H3). unfold group_agg.
    by rewrite H1, H2, !js_sum_ones, H3. }
  unfold aggregate_spec, period_keys. rewrite Hkeys. f_equal.
  apply list_fmap_ext. intros _ k _. by rewrite Hagg.
Qed.

(** X5.  Rows that name their columns in lower case aggregate exactly like
    rows that use the camel-case names. *)
Theorem lower_case_columns_equivalent (recs : list RawRecord) :
  aggregate_rows (to_row_lower <$> recs) = aggregate_rows (to_row <$> recs).
Proof.
  rewrite !aggregate_rows_spec. f_equal. apply aggregate_spec_ext.
  apply Forall2_fmap, Forall_Forall2_diag, Forall_forall. by intros x _.
Qed.







(** ** Failed queries and malformed responses *)

Lemma or_string_nonempty (s : option string) (d : string) :
  d ≠ "" → or_string s d ≠ "".
Proof. intros Hd. by destruct s as [[|c s]|]. Qed.

(** X7.  The call returns a result exactly when the response reports
    success and its data is an array without null elements; the result is
    then the aggregation of the array.  An unsuccessful response makes the
    call throw an error whose message is never empty: the response's own
    error text when it has one, and "Query failed" when the text is missing
    or empty.  A successful response whose data is missing or null, or
    holds a null element, makes the call throw a TypeError. *)
Theorem simulateQueryExecution_outcome
    (response : ApiResponse (option (list (option RawRow.t)))) :
  ((∃ out, simulateQueryExecution response = Ok out) ↔
   success response = true ∧
   ∃ rows : list RawRow.t, data response = Some (Some <$> rows)) ∧
  (∀ rows : list RawRow.t,
     success response = true → data response = Some (Some <$> rows) →
     simulateQueryExecution response = aggregate_rows rows) ∧
  (success response = false →
   ∃ message : string,
     simulateQueryExecution response = Throw (Error message) ∧
     message ≠ "" ∧
     (∀ e, error response = Some e → e ≠ "" → message = e) ∧
     (error response = None ∨ error response = Some "" → message = "Query failed")) ∧
  (success response = true →
   data response = None ∨ (∃ rows, data response = Some rows ∧ None ∈ rows) →
   simulateQueryExecution response = Throw TypeError).
Proof.
  assert (∀ rows : list RawRow.t,
            success response = true → data response = Some (Some <$> rows) →
            simulateQueryExecution response = aggregate_rows rows) as Hok.
  { intros rows Hs Hd. unfold simulateQueryExecution.
    by rewrite Hs, Hd, accumulate_rows_objects. }
  assert (success response = true →
          data response = None ∨ (∃ rows, data response = Some rows ∧ None ∈ rows) →
          simulateQueryExecution response = Throw TypeError) as Hnull.
  { intros Hs Hd. unfold simulateQueryExecution. rewrite Hs. simpl.
    destruct Hd as [->|(rows & -> & Hin)]; [done|].
    by rewrite accumulate_rows_null. }
  split_and!; [|done| |done].
  - split.
    + intros [out Hout]. destruct (success response) eqn:Hs.
      * split; [done|]. destruct (data response) as [rows|] eqn:Hd.
        -- destruct (objects_or_null rows) as [[objects ->]|Hin]; [eauto|].
           rewrite Hnull in Hout by eauto. discriminate.
        -- rewrite Hnull in Hout by eauto. discriminate.
      * unfold simulateQueryExecution in Hout. by rewrite Hs in Hout.
    + intros (Hs & rows & Hd). rewrite (Hok rows Hs Hd), aggregate_rows_spec. eauto.
  - intros Hs. unfold simulateQueryExecution. rewrite Hs. simpl.
    eexists. split; [done|]. split_and!.
    + by apply or_string_nonempty.
    + intros e -> He. by destruct e.
    + by intros [->| ->].
Qed.

(** ** The engine's output in the results table *)

Lemma append_percent_not_NA (s : string) : s +:+ "%" ≠ "N/A".
Proof. destruct s as [|? [|? [|? [|? ?]]]]; simpl; intros [=]. Qed.

Section data_table_properties.
Variable toFixed : jsnum → Z → string.

(** A cell shows "N/A" exactly when its value is null or NaN. *)
Lemma formatPercentage_NA (value : option jsnum) :
  formatPercentage toFixed value = "N/A" ↔
  value = None ∨ ∃ x, value = Some x ∧ isNaN x = true.
Proof.
  destruct value as [x|]; simpl; [|split; [by left|done]].
  destruct (isNaN x) eqn:Hx.
  - split; [|done]. intros _. right. by exists x.
  - split; [by intros ?%append_percent_not_NA|].
    intros [[=]|(? & [= <-] & ?)]. congruence.
Qed.

Lemma badgeVariant_secondary (value : option jsnum) :
  badgeVariant value = "secondary" ↔
  value = None ∨ ∃ x, value = Some x ∧ isNaN x = true.
Proof.
  destruct value as [x|]; simpl; [|split; [by left|done]].
  destruct (isNaN x) eqn:Hx.
  - split; [|done]. intros _. right. by exists x.
  - split; [by case_match|].
    intros [[=]|(? & [= <-] & ?)]. congruence.
Qed.

(** X9.  In the results table the first period shows "N/A", with a
    "secondary" badge, in each of the three ratio columns.  A later period
    whose total and prior total in a column are finite shows "N/A" and the
    "secondary" badge in that column exactly when the prior total is not
    greater than 0.  The deal-count column of a later period never shows
    "N/A". *)
Theorem table_shows_ratio (rows : list RawRow.t) :
  ∃ out : list AnalyticsRecord,
    aggregate_rows rows = Ok out ∧
    (∀ diff total, (diff, total) ∈ ratio_columns →
       (∀ first : AnalyticsRecord, out !! 0%nat = Some first →
          formatPercentage toFixed (diff first) = "N/A" ∧
          badgeVariant (diff first) = "secondary") ∧
       (∀ p c : AnalyticsRecord, follows out p c →
          isFinite (total p) = true → isFinite (total c) = true →
          (formatPercentage toFixed (diff c) = "N/A"
             ↔ js_gt (total p) (num 0) = false) ∧
          (badgeVariant (diff c) = "secondary"
             ↔ js_gt (total p) (num 0) = false))) ∧
    (∀ p c : AnalyticsRecord, follows out p c →
       formatPercentage toFixed (deals_diff c) ≠ "N/A" ∧
       badgeVariant (deals_diff c) ≠ "secondary").
Proof.
  exists (aggregate_spec rows). split; [apply aggregate_rows_spec|]. split.
  - intros diff total Hcol. split.
    + intros first Hfirst.
      apply (link_head ((λ k, (k, group_agg k rows)) <$> period_keys rows))
        in Hfirst.
      destruct (ratio_column_built diff total Hcol) as (f & _ & Hdiff).
      by rewrite Hfirst, Hdiff.
    + intros p c Hfol Hfp Hfc.
      rewrite formatPercentage_NA, badgeVariant_secondary.
      rewrite (aggregate_spec_ratio rows p c diff total Hfol Hcol).
      destruct (js_gt (total p) (num 0)) eqn:Hgt.
      * split; (split; [|done]); intros [[=]|(x & [= <-] & Hx)];
          by rewrite change_ratio_not_nan in Hx.
      * split; (split; [done|]); by left.
  - intros p c Hfol. destruct (follows_elem_of _ p c Hfol) as [Hp Hc].
    apply aggregate_spec_deals in Hp as [Hfp Hgt].
    apply aggregate_spec_deals in Hc as [Hfc _].
    rewrite formatPercentage_NA, badgeVariant_secondary.
    rewrite (aggregate_spec_ratio rows p c deals_diff Deals Hfol)
      by (unfold ratio_columns; rewrite !elem_of_cons; auto).
    rewrite Hgt.
    split; intros [[=]|(x & [= <-] & Hx)]; by rewrite change_ratio_not_nan in Hx.
Qed.
End data_table_properties.

(** ** The engine's output on the dashboard *)



(** * The response cache *)

Section cache_properties.
Context {T : Type}.
Implicit Types (cache : gmap string (CacheEntry.t T)) (calls : list (@cache_call T)).

Lemma last_set_snoc (key : string) calls (call : @cache_call T) :
  last_set key (calls ++ [call]) =
  match call with
  | CallSet now key' data ttlMs =>
      if decide (key' = key) then Some (now, data, ttlMs) else last_set key calls
  | CallGet _ _ => last_set key calls
  end.
Proof.
  induction calls as [|c calls IH]; simpl.
  - destruct call; [done|]. by case_decide.
  - rewrite IH. destruct call as [|now key' d ttl]; [done|].
    case_decide; [done|]. done.
Qed.

Lemma getFromCache_lookup (now : Z) (key k : string) cache :
  (getFromCache now key cache).2 !! k = None ∨
  (getFromCache now key cache).2 !! k = cache !! k.
Proof.
  unfold getFromCache. destruct (cache !! key) as [e|] eqn:He; [|by right].
  case_decide; [|by right]. simpl.
  destruct (decide (key = k)) as [->|Hne].
  - left. apply lookup_delete_eq.
  - right. by apply lookup_delete_ne.
Qed.

(** Every entry of the cache was written by the most recent [setCache] for
    its key. *)
Lemma cache_after_lookup calls (key : string) (e : CacheEntry.t T) :
  cache_after calls !! key = Some e →
  ∃ now ttlMs,
    last_set key calls = Some (now, CacheEntry.data e, ttlMs) ∧
    CacheEntry.expiry e = now + ttlMs.
Proof.
  revert e. induction calls as [|call calls IH] using rev_ind; intros e.
  - unfold cache_after. simpl. by rewrite lookup_empty.
  - unfold cache_after in *. rewrite foldl_snoc, last_set_snoc.
    destruct call as [now k|now k d ttl]; simpl.
    + intros He.
      destruct (getFromCache_lookup now k key (foldl cache_step ∅ calls))
        as [Hnone|Hsame]; [congruence|].
      apply IH. by rewrite <-Hsame.
    + unfold setCache. destruct (decide (k = key)) as [->|Hne].
      * rewrite lookup_insert_eq. intros [= <-]. by exists now, ttl.
      * rewrite lookup_insert_ne by done. apply IH.
Qed.

(** X11.  Whatever the history of calls on the cache, a hit returns the
    data most recently stored under that key, and only up to the moment its
    time to live ends; a hit leaves the cache unchanged. *)
Theorem cache_hit_is_fresh calls (now : Z) (key : string) (d : T) cache' :
  getFromCache now key (cache_after calls) = (Some d, cache') →
  cache' = cache_after calls ∧
  ∃ stored ttlMs,
    last_set key calls = Some (stored, d, ttlMs) ∧ now ≤ stored + ttlMs.
Proof.
  unfold getFromCache.
  destruct (cache_after calls !! key) as [e|] eqn:He; [|done].
  case_decide as Hexp; [done|]. intros [= <- <-]. split; [done|].
  destruct (cache_after_lookup calls key e He) as (stored & ttl & Hlast & Hexpiry).
  exists stored, ttl. split; [done|]. lia.
Qed.

(** X12.  Reading back what was just stored: the data is served up to and
    including the instant [ttlMs] after the store; any later read answers
    null and removes the entry. *)
Theorem cache_round_trip (stored now ttlMs : Z) (key : string) (d : T) cache :
  getFromCache now key (setCache stored key d ttlMs cache) =
  if decide (now ≤ stored + ttlMs)
  then (Some d, setCache stored key d ttlMs cache)
  else (None, delete key cache).
Proof.
  unfold getFromCache, setCache. rewrite lookup_insert_eq. simpl.
  case_decide as Hexp.
  - rewrite decide_False by lia. by rewrite delete_insert_eq.
  - by rewrite decide_True by lia.
Qed.

(** X13.  A miss leaves no entry under the key, so every later read of the
    key misses too until it is stored again; reads never touch the entries
    of other keys. *)
Theorem cache_miss_evicts (now : Z) (key : string) cache cache' :
  getFromCache now key cache = (None, cache') →
  cache' !! key = None ∧
  (∀ k, k ≠ key → cache' !! k = cache !! k) ∧
  (∀ later, getFromCache later key cache' = (None, cache')).
Proof.
  unfold getFromCache at 1.
  destruct (cache !! key) as [e|] eqn:He.
  - case_decide; [|done]. intros [= <-]. split_and!.
    + apply lookup_delete_eq.
    + intros k Hne. by apply lookup_delete_ne.
    + intros later. unfold getFromCache. by rewrite lookup_delete_eq.
  - intros [= <-]. split_and!; [done|done|].
    intros later. unfold getFromCache. by rewrite He.
Qed.
End cache_properties.

Lemma cache_hit_is_fresh_witness :
  getFromCache 61000 "/api/summary-stats" (cache_after sample_calls)
    = (Some "{summary}", cache_after sample_calls) ∧
  cache_after sample_calls = cache_after sample_calls ∧
  ∃ stored ttlMs,
    last_set "/api/summary-stats" sample_calls = Some (stored, "{summary}", ttlMs) ∧
    61000 ≤ stored + ttlMs.
Proof.
  assert (getFromCache 61000 "/api/summary-stats" (cache_after sample_calls)
            = (Some "{summary}", cache_after sample_calls)) as Hhit
    by (vm_compute; reflexivity).
  split; [exact Hhit|].
  exact (cache_hit_is_fresh sample_calls 61000 "/api/summary-stats" "{summary}"
           (cache_after sample_calls) Hhit).
Defined.

Lemma cache_miss_evicts_witness :
  getFromCache 61001 "/api/summary-stats" (cache_after sample_calls)
    = (None, delete "/api/summary-stats" (cache_after sample_calls)) ∧
  delete "/api/summary-stats" (cache_after sample_calls) !! "/api/summary-stats"
    = None ∧
  (∀ k, k ≠ "/api/summary-stats" →
     delete "/api/summary-stats" (cache_after sample_calls) !! k
       = cache_after sample_calls !! k) ∧
  (∀ later,
     getFromCache later "/api/summary-stats"
       (delete "/api/summary-stats" (cache_after sample_calls))
     = (None, delete "/api/summary-stats" (cache_after sample_calls))).
Proof.
  assert (getFromCache 61001 "/api/summary-stats" (cache_after sample_calls)
            = (None, delete "/api/summary-stats" (cache_after sample_calls)))
    as Hmiss by (vm_compute; reflexivity).
  split; [exact Hmiss|].
  exact (cache_miss_evicts 61001 "/api/summary-stats" (cache_after sample_calls)
           _ Hmiss).
Defined.

(** ** Cache keys *)

Lemma colon_free_append (e1 e2 s1 s2 : string) :
  colon_free e1 → colon_free e2 →
  (s1 = "" ∨ ∃ b, s1 = String.String colon b) →
  (s2 = "" ∨ ∃ b, s2 = String.String colon b) →
  e1 +:+ s1 = e2 +:+ s2 → e1 = e2 ∧ s1 = s2.
Proof.
  revert e2. induction e1 as [|c1 e1 IH]; intros [|c2 e2] H1 H2 Hs1 Hs2; simpl.
  - done.
  - destruct H2 as [Hc2 _]. destruct Hs1 as [->|[b ->]]; [done|].
    intros [= Hc _]. by destruct Hc2.
  - destruct H1 as [Hc1 _]. destruct Hs2 as [->|[b ->]]; [done|].
    intros [= Hc _]. by destruct Hc1.
  - destruct H1 as [_ H1], H2 as [_ H2]. intros [= -> Heq].
    destruct (IH e2 H1 H2 Hs1 Hs2 Heq) as [-> ->]. done.
Qed.

(** X14.  For endpoints that contain no colon, as all endpoints of the
    service, two requests share a cache key only if they have the same
    endpoint and the same body, an empty body counting as none. *)
Theorem getCacheKey_injective (endpoint1 endpoint2 : string)
    (body1 body2 : option string) :
  colon_free endpoint1 → colon_free endpoint2 →
  getCacheKey endpoint1 body1 = getCacheKey endpoint2 body2 →
  endpoint1 = endpoint2 ∧ effective_body body1 = effective_body body2.
Proof.
  intros H1 H2 Heq. unfold getCacheKey in Heq.
  apply colon_free_append in Heq as [-> Hbody]; [|done|done|..].
  - split; [done|].
    destruct body1 as [[|c1 b1]|], body2 as [[|c2 b2]|]; simpl in *;
      try done; by injection Hbody as -> ->.
  - destruct body1 as [[|c1 b1]|]; eauto.
  - destruct body2 as [[|c2 b2]|]; eauto.
Qed.

Lemma getCacheKey_injective_witness :
  colon_free "/api/query" ∧ colon_free "/api/query" ∧
  getCacheKey "/api/query" (Some "{}") = getCacheKey "/api/query" (Some "{}") ∧
  "/api/query" = "/api/query" ∧
  effective_body (Some "{}") = effective_body (Some "{}").
Proof.
  assert (colon_free "/api/query") as H1 by (simpl; repeat split; discriminate).
  split; [exact H1|]. split; [exact H1|]. split; [reflexivity|].
  exact (getCacheKey_injective "/api/query" "/api/query" (Some "{}") (Some "{}")
           H1 H1 eq_refl).
Defined.

(** * The list of custom ranges *)

Lemma range_id_inj (t1 t2 : Z) : range_id t1 = range_id t2 → t1 = t2.
Proof. unfold range_id. intros Heq. by apply (inj _), ToString_int_inj in Heq. Qed.

Lemma ids_filter (id : string) (ranges : list CustomCommitmentRange.t) :
  CustomCommitmentRange.id <$> filter (λ r, CustomCommitmentRange.id r ≠ id) ranges
  = filter (.≠ id) (CustomCommitmentRange.id <$> ranges).
Proof.
  induction ranges as [|r ranges IH]; [done|].
  rewrite fmap_cons, !filter_cons. case_decide; by rewrite ?fmap_cons, IH.
Qed.

Section range_list_properties.
Variable parseFloat : string → jsnum.
Variable trim : string → string.

(** What a submission does to the list of ranges. *)
Lemma handleSubmit_cases (now : Z) (st : BuilderState) :
  handleSubmit parseFloat trim now st = Ok st ∨
  ∃ range,
    handleSubmit parseFloat trim now st =
      Ok (mkBuilderState RangeForm.empty false (customCommitmentRanges st ++ [range])) ∧
    CustomCommitmentRange.id range = range_id now ∧
    well_formed_range range.
Proof.
  unfold handleSubmit. cbv zeta.
  destruct (isNaN _ || isNaN _ || js_ge _ _ || bool_decide _) eqn:Hguard;
    [by left|right].
  apply orb_false_iff in Hguard as [Hguard Hlabel].
  apply orb_false_iff in Hguard as [Hguard Hge].
  apply orb_false_iff in Hguard as [Hmin Hmax].
  eexists. split; [done|]. split; [done|].
  unfold well_formed_range. simpl. split_and!; try done.
  - by apply js_ge_false_gt.
  - by apply bool_decide_eq_false in Hlabel.
  - by exists now.
Qed.

(** X15.  Whatever the user types, submits, removes or clears, every
    custom range in the filter specification has two bounds that are
    numbers with the minimum strictly below the maximum, a non-empty label,
    and an id of the form custom-<time of submission>. *)
Theorem custom_ranges_always_well_formed (events : list builder_event) :
  Forall well_formed_range
    (customCommitmentRanges (builder_run parseFloat trim events initial_builder)).
Proof.
  unfold builder_run. induction events as [|ev events IH] using rev_ind.
  - constructor.
  - rewrite foldl_snoc. set (st := foldl _ _ events) in *.
    destruct ev as [form|open|now|id|]; simpl; try done.
    + destruct (handleSubmit_cases now st) as [->|(range & -> & _ & Hwf)];
        [done|]. simpl. apply Forall_app. by split; [|constructor].
    + rewrite Forall_forall in IH |- *.
      intros r [_ Hr]%list_elem_of_filter. by apply IH.
Qed.

Lemma builder_step_ids (st : BuilderState) (ev : builder_event) (id : string) :
  id ∈ CustomCommitmentRange.id <$> customCommitmentRanges
         (builder_step parseFloat trim st ev) →
  id ∈ CustomCommitmentRange.id <$> customCommitmentRanges st ∨
  ∃ now, ev = Submit now ∧ id = range_id now.
Proof.
  destruct ev as [form|open|now|id'|]; simpl; auto.
  - destruct (handleSubmit_cases now st) as [->|(range & -> & Hid & _)];
      [by left|]. simpl. rewrite fmap_app, elem_of_app.
    intros [Hin|Hin]; [by left|]. right. exists now. split; [done|].
    apply list_elem_of_singleton in Hin. by rewrite Hin.
  - intros [r [-> Hr]]%list_elem_of_fmap. left.
    apply list_elem_of_filter in Hr as [_ Hr]. by apply list_elem_of_fmap_2.
  - by intros ?%elem_of_nil.
Qed.

Lemma builder_run_ids (events : list builder_event) (id : string) :
  id ∈ CustomCommitmentRange.id <$> customCommitmentRanges
         (builder_run parseFloat trim events initial_builder) →
  ∃ now, now ∈ submit_times events ∧ id = range_id now.
Proof.
  unfold builder_run. induction events as [|ev events IH] using rev_ind.
  - by intros ?%elem_of_nil.
  - rewrite foldl_snoc. intros [Hin|(now & -> & ->)]%builder_step_ids.
    + destruct (IH Hin) as (now & Hnow & ->). exists now. split; [|done].
      unfold submit_times. rewrite omap_app, elem_of_app. by left.
    + exists now. split; [|done].
      unfold submit_times. rewrite omap_app, elem_of_app. right. simpl. by left.
Qed.

(** X16.  When no two submissions happen in the same millisecond, the ids
    of the custom ranges are pairwise distinct, so a remove button never
    removes more than its own range. *)
Theorem range_ids_distinct (events : list builder_event) :
  NoDup (submit_times events) →
  NoDup (CustomCommitmentRange.id <$> customCommitmentRanges
           (builder_run parseFloat trim events initial_builder)).
Proof.
  induction events as [|ev events IH] using rev_ind; intros Hnd.
  - constructor.
  - unfold submit_times in Hnd. rewrite omap_app in Hnd.
    apply NoDup_app in Hnd as (Hnd & Hdisj & _). specialize (IH Hnd).
    pose proof (builder_run_ids events) as Hids.
    unfold builder_run in *. rewrite foldl_snoc. set (st := foldl _ _ events) in *.
    destruct ev as [form|open|now|id|]; simpl; try done.
    + destruct (handleSubmit_cases now st) as [->|(range & -> & Hid & _)];
        [done|]. simpl. rewrite fmap_app. apply NoDup_app. split_and!; [done| |].
      * intros id Hin Hin'. simpl in Hin'.
        apply list_elem_of_singleton in Hin' as ->. rewrite Hid in Hin.
        destruct (Hids _ Hin) as (t & Ht & Heq). apply range_id_inj in Heq as <-.
        apply (Hdisj now Ht). simpl. by left.
      * apply NoDup_singleton.
    + rewrite ids_filter. by apply NoDup_filter.
    + constructor.
Qed.
End range_list_properties.

Lemma range_ids_distinct_witness :
  NoDup (submit_times two_submissions) ∧
  NoDup (CustomCommitmentRange.id <$> customCommitmentRanges
           (builder_run sample_parseFloat sample_trim two_submissions
              initial_builder)).
Proof.
  assert (NoDup (submit_times two_submissions)) as Hnd.
  { simpl. apply NoDup_cons. split; [|apply NoDup_singleton].
    intros Hin. apply list_elem_of_singleton in Hin. discriminate. }
  split; [exact Hnd|].
  exact (range_ids_distinct sample_parseFloat sample_trim two_submissions Hnd).
Defined.

(** X17.  Removing the range that was just submitted brings the list of
    custom ranges back to what it was before the submission, provided no
    older range carries the id of that moment. *)
Theorem submit_then_remove_restores (parseFloat : string → jsnum)
    (trim : string → string) (now : Z) (st : BuilderState) :
  (∀ range, range ∈ customCommitmentRanges st →
     CustomCommitmentRange.id range ≠ range_id now) →
  customCommitmentRanges
    (handleCustomRangeRemove (range_id now)
       (builder_step parseFloat trim st (Submit now)))
  = customCommitmentRanges st.
Proof.
  intros Hfresh.
  assert (filter (λ r, CustomCommitmentRange.id r ≠ range_id now)
            (customCommitmentRanges st) = customCommitmentRanges st) as Hkeep.
  { induction (customCommitmentRanges st) as [|r l IH]; [done|].
    rewrite filter_cons_True by (apply Hfresh; left).
    f_equal. apply IH. intros r' Hr'. apply Hfresh. by right. }
  simpl. destruct (handleSubmit_cases parseFloat trim now st)
    as [->|(range & -> & Hid & _)]; simpl; [done|].
  rewrite filter_app, Hkeep, filter_cons_False, filter_nil, app_nil_r; [done|].
  intros Hne. by apply Hne.
Qed.

Lemma submit_then_remove_restores_witness :
  length (customCommitmentRanges
            (builder_step sample_parseFloat sample_trim
               (builder_run sample_parseFloat sample_trim third_range_typed
                  initial_builder)
               (Submit 3000))) = 3%nat ∧
  (∀ range,
     range ∈ customCommitmentRanges
       (builder_run sample_parseFloat sample_trim third_range_typed initial_builder) →
     CustomCommitmentRange.id range ≠ range_id 3000) ∧
  customCommitmentRanges
    (handleCustomRangeRemove (range_id 3000)
       (builder_step sample_parseFloat sample_trim
          (builder_run sample_parseFloat sample_trim third_range_typed
             initial_builder)
          (Submit 3000)))
  = customCommitmentRanges
      (builder_run sample_parseFloat sample_trim third_range_typed initial_builder).
Proof.
  assert (∀ range,
     range ∈ customCommitmentRanges
       (builder_run sample_parseFloat sample_trim third_range_typed initial_builder) →
     CustomCommitmentRange.id range ≠ range_id 3000) as Hfresh.
  { intros range Hin. vm_compute in Hin.
    repeat (apply elem_of_cons in Hin as [->|Hin]);
      [discriminate|discriminate|by apply elem_of_nil in Hin]. }
  split; [by vm_compute|]. split; [exact Hfresh|].
  exact (submit_then_remove_restores sample_parseFloat sample_trim 3000 _ Hfresh).
Defined.

(** * The filter panel *)

Lemma selected_handleFilterChange (field field' : ListField)
    (values : list string) (sel : SelectedFilters.t) :
  selected field' (handleFilterChange field values sel) =
  if decide (field' = field) then values else selected field' sel.
Proof. destruct field, field'; by case_decide. Qed.

Lemma handleFilterChange_id (field : ListField) (sel : SelectedFilters.t) :
  handleFilterChange field (selected field sel) sel = sel.
Proof. by destruct sel, field. Qed.

Lemma handleFilterChange_twice (field : ListField) (values values' : list string)
    (sel : SelectedFilters.t) :
  handleFilterChange field values' (handleFilterChange field values sel) =
  handleFilterChange field values' sel.
Proof. by destruct field. Qed.

Lemma panel_step_NoDup (sel : SelectedFilters.t) (ev : panel_event) :
  (∀ field, NoDup (selected field sel)) →
  ∀ field, NoDup (selected field (panel_step sel ev)).
Proof.
  intros Hnd field. destruct ev as [[f|] value|[f|] value|]; simpl; try done.
  - case_bool_decide as Hin; [done|].
    rewrite selected_handleFilterChange. case_decide as Hf; [|done].
    apply NoDup_app. split_and!; [done| |apply NoDup_singleton].
    intros v Hv ->%list_elem_of_singleton. done.
  - rewrite selected_handleFilterChange. case_decide as Hf; [|done].
    by apply NoDup_filter.
  - destruct field; constructor.
Qed.

(** X18.  Starting from the cleared selection, no sequence of selecting,
    removing and clearing puts the same value twice into a filter. *)
Theorem selections_never_repeat (events : list panel_event) (field : ListField) :
  NoDup (selected field (panel_run events handleClearFilters)).
Proof.
  revert field. unfold panel_run.
  induction events as [|ev events IH] using rev_ind.
  - intros []; constructor.
  - rewrite foldl_snoc. by apply panel_step_NoDup.
Qed.

Lemma filter_ne_snoc (l : list string) (value : string) :
  value ∉ l → filter (λ v, v ≠ value) (l ++ [value]) = l.
Proof.
  intros Hnotin. rewrite filter_app, filter_cons_False, filter_nil, app_nil_r
    by (by intros ?).
  induction l as [|v l IH]; [done|].
  apply not_elem_of_cons in Hnotin as [Hne Hnotin].
  rewrite filter_cons_True by done. f_equal. by apply IH.
Qed.

(** X19.  Selecting a value that was not selected and then removing it
    brings the selection back to what it was. *)
Theorem select_then_remove_restores (sel : SelectedFilters.t)
    (filterType : FilterKey) (value : string) :
  (∀ field, filterType = ListKey field → value ∉ selected field sel) →
  removeFilter (handleSelectChange sel filterType value) filterType value = sel.
Proof.
  intros Hfresh. destruct filterType as [field|]; [|done].
  specialize (Hfresh field eq_refl). simpl.
  rewrite bool_decide_false by done.
  rewrite selected_handleFilterChange, decide_True by done.
  rewrite filter_ne_snoc by done.
  by rewrite handleFilterChange_twice, handleFilterChange_id.
Qed.

Lemma select_then_remove_restores_witness :
  (∀ field, ListKey FRegion = ListKey field →
     "Southwest" ∉ selected field pacific_selection) ∧
  removeFilter (handleSelectChange pacific_selection (ListKey FRegion) "Southwest")
    (ListKey FRegion) "Southwest" = pacific_selection.
Proof.
  assert (∀ field, ListKey FRegion = ListKey field →
            "Southwest" ∉ selected field pacific_selection) as Hfresh.
  { intros field [= <-]. simpl. intros Hin.
    apply list_elem_of_singleton in Hin. discriminate. }
  split; [exact Hfresh|].
  exact (select_then_remove_restores pacific_selection (ListKey FRegion)
           "Southwest" Hfresh).
Defined.

(** X20.  Once a region is selected, selecting further values, regions
    included, never changes the region the dashboard page sends: whatever is
    selected afterwards, the request carries the region selected first,
    provided its name is not empty. *)
Theorem first_region_is_sent (now : Z) (sel : SelectedFilters.t)
    (first : string) (others : list string)
    (selections : list (FilterKey * string)) :
  SelectedFilters.region sel = first :: others → first ≠ "" →
  CappedRequest.region (handleRunQuery_request now (select_values sel selections))
  = first.
Proof.
  intros Hregion Hne.
  assert (∃ others', SelectedFilters.region (select_values sel selections)
                     = first :: others') as [others' Hfinal].
  { unfold select_values.
    induction selections as [|[filterType value] selections IH] using rev_ind;
      [by exists others|].
    rewrite foldl_snoc. destruct IH as [others' IH]. simpl.
    destruct filterType as [field|]; [|by exists others']. simpl.
    case_bool_decide; [by exists others'|].
    destruct field; simpl; try (by exists others').
    rewrite IH. by exists (others' ++ [value]). }
  unfold handleRunQuery_request. simpl. rewrite Hfinal. simpl.
  by destruct first.
Qed.

Lemma first_region_is_sent_witness :
  SelectedFilters.region pacific_selection = "Pacific" :: [] ∧
  "Pacific" ≠ "" ∧
  SelectedFilters.region (select_values pacific_selection further_selections)
    = ["Pacific"; "Southwest"] ∧
  CappedRequest.region
    (handleRunQuery_request 1700000000000
       (select_values pacific_selection further_selections))
  = "Pacific".
Proof.
  assert (SelectedFilters.region pacific_selection = "Pacific" :: []) as H1
    by reflexivity.
  assert ("Pacific" ≠ "") as H2 by discriminate.
  split; [exact H1|]. split; [exact H2|]. split; [by vm_compute|].
  exact (first_region_is_sent 1700000000000 pacific_selection "Pacific" []
           further_selections H1 H2).
Defined.

(** X21.  With the database available, the Execute Query button is
    disabled exactly when nothing at all is selected, that is, in the state
    that Clear All Filters produces. *)
Theorem run_button_disabled_iff_cleared (sel : SelectedFilters.t) :
  run_button_disabled false sel = true ↔ sel = handleClearFilters.
Proof.
  unfold run_button_disabled, totalSelectedFilters. simpl.
  rewrite Nat.eqb_eq. split.
  - destruct sel as [[|? ?] [|? ?] [|? ?] [|? ?] [|? ?] [|? ?] [|? ?]];
      simpl; intros; (done || lia).
  - by intros ->.
Qed.

(** * Dates in the transformed rows *)

Lemma parse_digit_char (d acc : Z) (s : string) :
  is_digit d →
  parse_digits (String.String (digit_char d) s) acc = parse_digits s (10 * acc + d).
Proof.
  intros Hd. cbn [parse_digits]. rewrite digit_char_code by done.
  unfold is_digit in Hd. rewrite Z2N.id by lia.
  replace (48 + d - 48) with d by lia.
  destruct (Z.leb_spec 0 d), (Z.ltb_spec d 10); simpl; (done || lia).
Qed.

(** X22.  A valid YYYYMMDD key is rewritten as a date of the form
    YYYY-MM-DD: four characters that read as the year, two that read as the
    month and two that read as the day of the key, separated by hyphens. *)
Theorem formatDate_valid_key (k : Z) :
  valid_yyyymmdd k = true →
  ∃ year month day : string,
    formatDate (dateStr_of (KNumber k)) = year +:+ "-" +:+ month +:+ "-" +:+ day ∧
    String.length year = 4%nat ∧ String.length month = 2%nat ∧
    String.length day = 2%nat ∧
    parse_digits year 0 = Some (k / 10000) ∧
    parse_digits month 0 = Some ((k / 100) mod 100) ∧
    parse_digits day 0 = Some (k mod 100).
Proof.
  intros Hvalid. pose proof (valid_yyyymmdd_eight_digits k Hvalid) as Hk.
  change (10 ^ Z.of_nat 7) with 10000000 in Hk.
  assert (0 ≤ k) as Hpos by lia.
  pose proof (digits_length 7 k (valid_yyyymmdd_eight_digits k Hvalid)) as Hlen.
  pose proof (digits_is_digit k) as Hdig.
  pose proof (digits_value k Hpos) as Hval.
  unfold dateStr_of, key_truthy. rewrite (proj2 (Z.eqb_neq k 0)) by lia.
  cbn [negb String_]. unfold ToString_int. rewrite (proj2 (Z.ltb_ge k 0)) by lia.
  destruct (digits k) as [|d7 [|d6 [|d5 [|d4 [|d3 [|d2 [|d1 [|d0 [|? ?]]]]]]]]];
    try discriminate.
  repeat (apply Forall_cons in Hdig as [? Hdig]).
  unfold string_of_digits, formatDate, slice.
  cbn -[digit_char parse_digits Z.div Z.modulo].
  do 3 eexists. split; [reflexivity|]. split_and!; try done.
  all: rewrite !parse_digit_char by done; cbn [parse_digits]; f_equal.
  all: cbv [value_le reverse rev_append foldr] in Hval.
  all: unfold is_digit in *; Z.div_mod_to_equations; lia.
Qed.

Lemma formatDate_valid_key_witness :
  valid_yyyymmdd 20240131 = true ∧
  ∃ year month day : string,
    formatDate (dateStr_of (KNumber 20240131))
      = year +:+ "-" +:+ month +:+ "-" +:+ day ∧
    String.length year = 4%nat ∧ String.length month = 2%nat ∧
    String.length day = 2%nat ∧
    parse_digits year 0 = Some (20240131 / 10000) ∧
    parse_digits month 0 = Some ((20240131 / 100) mod 100) ∧
    parse_digits day 0 = Some (20240131 mod 100).
Proof.
  split; [reflexivity|]. apply (formatDate_valid_key 20240131). reflexivity.
Defined.
